(** * greenbone-feed-sync: the sync orchestration of [greenbone/feed/sync/main.py]

    A shallow embedding of [main.py]: the [Sync] and [SyncList] data classes,
    [filter_syncs], the coroutine [feed_sync] and the entry point [main].

    [feed_sync] talks to four collaborators that live outside [main.py]:
    [os.geteuid], [CliParser.parse_arguments], [Rsync.sync] and [flock_wait].
    They are variables of the development.  Every interaction with them, and
    every line printed, is appended to a trace of events, so that the order of
    lock operations, transfers and messages can be stated.

    The coroutine is suspended in two places, while it waits for a lock and
    while a transfer runs.  A collaborator may raise any exception there; an
    interruption of the run is the exception [KeyboardInterrupt] raised at
    one of these places. *)

From Stdlib Require Import String List ZArith Bool Lia Sorted.
Import ListNotations.
Local Open Scope string_scope.
Local Open Scope list_scope.
Local Open Scope Z_scope.

(** ** Data model (main.py, lines 39-58) *)

(** [class Sync]: name, types, url, destination. *)
Record Sync : Type := mkSync {
  name : string;
  types : list string;
  url : string;
  destination : string
}.

(** [class SyncList]: lock_file, syncs. *)
Record SyncList : Type := mkSyncList {
  lock_file : string;
  syncs : list Sync
}.

(** Python's [x in xs] on a tuple or list of strings. *)
Definition contains (x : string) (xs : list string) : bool :=
  existsb (String.eqb x) xs.

(** ** Group filter (main.py, lines 61-68)

    [SyncList(lock_file=lock_file,
              syncs=[sync for sync in syncs if feed_type in sync.types])] *)
Definition filter_syncs (lock_file : string) (feed_type : string)
    (syncs : list Sync) : SyncList :=
  {| lock_file := lock_file;
     syncs := filter (fun sync => contains feed_type (types sync)) syncs |}.

Lemma contains_In (x : string) (xs : list string) :
  contains x xs = true <-> In x xs.
Proof.
  unfold contains. rewrite existsb_exists. split.
  - intros [y [Hy Heq]]. apply String.eqb_eq in Heq. now subst.
  - intros H. exists x. split; [assumption | apply String.eqb_refl].
Qed.

(** Shifting a strictly increasing list of positions keeps it increasing. *)
Lemma StronglySorted_map_S (idx : list nat) :
  StronglySorted lt idx -> StronglySorted lt (map S idx).
Proof.
  induction 1 as [|i idx Hs IH Hall]; cbn [map]; constructor.
  - exact IH.
  - rewrite Forall_forall in *. intros j Hj.
    apply in_map_iff in Hj. destruct Hj as [j' [<- Hj']].
    apply Hall in Hj'. lia.
Qed.

(** The positions selected by a list comprehension with a guard: the kept
    elements sit at a strictly increasing list of positions of the input, and
    a position is in that list exactly when its element passes the guard. *)
Lemma filter_positions {A : Type} (p : A -> bool) (l : list A) :
  exists idx : list nat,
    StronglySorted lt idx
    /\ (forall i, In i idx <-> exists a, nth_error l i = Some a /\ p a = true)
    /\ map (nth_error l) idx = map Some (filter p l).
Proof.
  induction l as [|a l [idx [Hsorted [Hmem Hmap]]]].
  - exists []. repeat split; try constructor.
    + intros [].
    + intros [a [Ha _]]. destruct i; discriminate.
  - assert (Hshift : map (nth_error (a :: l)) (map S idx) = map Some (filter p l)).
    { rewrite map_map. cbn [nth_error]. exact Hmap. }
    assert (HS : forall i, In i (map S idx) <->
               exists j, i = S j /\ exists b, nth_error l j = Some b /\ p b = true).
    { intros i. rewrite in_map_iff. split.
      - intros [j [<- Hj]]. exists j. split; [reflexivity | now apply Hmem].
      - intros [j [-> Hj]]. exists j. split; [reflexivity | now apply Hmem]. }
    cbn [filter]. destruct (p a) eqn:Hpa.
    + exists (0%nat :: map S idx). repeat split.
      * constructor; [now apply StronglySorted_map_S |].
        rewrite Forall_forall. intros j Hj. apply HS in Hj.
        destruct Hj as [j' [-> _]]. lia.
      * intros [<- | Hi].
        -- exists a. now split.
        -- apply HS in Hi. destruct Hi as [j [-> Hj]]. exact Hj.
      * intros [b [Hb Hpb]]. destruct i as [|j].
        -- now left.
        -- right. apply HS. exists j. split; [reflexivity | now exists b].
      * cbn [map nth_error]. now rewrite Hshift.
    + exists (map S idx). repeat split.
      * now apply StronglySorted_map_S.
      * intros Hi. apply HS in Hi. destruct Hi as [j [-> Hj]]. exact Hj.
      * intros [b [Hb Hpb]]. destruct i as [|j].
        -- cbn in Hb. injection Hb as <-. congruence.
        -- apply HS. exists j. split; [reflexivity | now exists b].
      * exact Hshift.
Qed.

Lemma filter_filter_same {A : Type} (p : A -> bool) (l : list A) :
  filter p (filter p l) = filter p l.
Proof.
  induction l as [|a l IH]; [reflexivity |].
  cbn [filter]. destruct (p a) eqn:Hpa; [| exact IH].
  cbn [filter]. now rewrite Hpa, IH.
Qed.

(** C3. For every lock file, feed type and candidate list, [filter_syncs]
    returns (it is a total function without effects) a [SyncList] whose
    [lock_file] is the given one and whose [syncs] are the candidates whose
    [types] contain the feed type, in their original order: they sit at a
    strictly increasing list of positions of the candidates, which holds
    exactly the positions of the candidates carrying the feed type.  When no
    candidate carries the feed type, [syncs] is empty. *)
Theorem filter_syncs_selects_subsequence :
  forall (lock : string) (feed_type : string) (candidates : list Sync),
    lock_file (filter_syncs lock feed_type candidates) = lock
    /\ (exists idx : list nat,
          StronglySorted lt idx
          /\ (forall i, In i idx <->
                exists s, nth_error candidates i = Some s
                          /\ In feed_type (types s))
          /\ map (nth_error candidates) idx
             = map Some (syncs (filter_syncs lock feed_type candidates)))
    /\ ((forall s, In s candidates -> ~ In feed_type (types s)) ->
        syncs (filter_syncs lock feed_type candidates) = []).
Proof.
  intros lock feed_type candidates. split; [reflexivity | split].
  - destruct (filter_positions (fun s => contains feed_type (types s)) candidates)
      as [idx [Hsorted [Hmem Hmap]]].
    exists idx. repeat split; try assumption.
    + intros Hi. apply Hmem in Hi. destruct Hi as [s [Hs Hc]].
      exists s. split; [assumption | now apply contains_In].
    + intros [s [Hs Hin]]. apply Hmem. exists s.
      split; [assumption | now apply contains_In].
  - intros Hnone. cbn [filter_syncs syncs].
    induction candidates as [|s l IH]; [reflexivity |].
    cbn [filter]. destruct (contains feed_type (types s)) eqn:Hc.
    + apply contains_In in Hc. exfalso. apply (Hnone s); [now left | assumption].
    + apply IH. intros s' Hs'. apply Hnone. now right.
Qed.

(** C4. [filter_syncs] is idempotent: filtering the [syncs] of its result
    again, with the same lock file and feed type, gives the same [SyncList].
    [filter_syncs] only reads [sync.types] and builds a new list, so the
    candidates are immutable values here; the second conjunct says that every
    spec of the result is one of the candidates, unchanged, and carries the
    feed type. *)
Theorem filter_syncs_idempotent :
  forall (lock : string) (feed_type : string) (candidates : list Sync),
    filter_syncs lock feed_type
      (syncs (filter_syncs lock feed_type candidates))
    = filter_syncs lock feed_type candidates
    /\ forall s, In s (syncs (filter_syncs lock feed_type candidates)) ->
         In s candidates /\ In feed_type (types s).
Proof.
  intros lock feed_type candidates. split.
  - unfold filter_syncs. cbn [syncs]. now rewrite filter_filter_same.
  - intros s Hs. cbn [filter_syncs syncs] in Hs. apply filter_In in Hs.
    destruct Hs as [Hin Hc]. split; [assumption | now apply contains_In].
Qed.

(** ** Exceptions

    An exception object, as far as [main.py] looks at it: the classes of its
    type ([type(e).__mro__], by name, most derived first), what [str(e)]
    gives, and the [stderr] attribute that [RsyncError] carries.  The
    exception classes themselves are declared in [errors.py]. *)
Record exn : Type := mkExn {
  exn_mro : list string;
  exn_str : string;
  exn_stderr : string
}.

(** [isinstance(e, cls)], which is what an [except cls] clause tests. *)
Definition isinstance (e : exn) (cls : string) : bool :=
  contains cls (exn_mro e).

(** Modelled from the spec: [GreenboneFeedSyncError(msg)], the error that
    [feed_sync] raises itself and [main] catches.  The class is declared in
    [errors.py]; it is taken to be a plain [Exception] whose [str] is its
    message, as a fatal configuration error that is no transfer error. *)
Definition GreenboneFeedSyncError (msg : string) : exn :=
  {| exn_mro := ["GreenboneFeedSyncError"; "Exception"; "BaseException"; "object"];
     exn_str := msg;
     exn_stderr := "" |}.

(** ** Events and traces *)

Inductive event : Type :=
| EvParseArguments
    (* CliParser().parse_arguments() was called *)
| EvFilterSyncs (lock : string) (feed_type : string)
    (* filter_syncs was called (a call marker: the function itself is pure) *)
| EvFlockWait (path : string) (verbose : bool) (wait_interval : option Z)
    (raised : option exn)
    (* flock_wait(path, verbose=.., wait_interval=..) was entered; [None]:
       the lock was acquired, [Some e]: entering raised [e] *)
| EvFlockRelease (path : string)
    (* the guard of flock_wait(path, ..) was left *)
| EvPrint (text : string)
    (* print(text) *)
| EvPrintStderr (text : string)
    (* print(text, file=sys.stderr) *)
| EvRsyncSync (url : string) (destination : string) (raised : option exn).
    (* await rsync.sync(url=.., destination=..); [None]: it returned,
       [Some e]: it raised [e] *)

Definition trace : Type := list event.

(** ** Control flow

    How a block of statements ends: it falls through with a value, it
    executes [return v], or an exception leaves it. *)
Inductive completion (A : Type) : Type :=
| Normal (a : A)
| Return (v : Z)
| Raise (e : exn).
Arguments Normal {A} a.
Arguments Return {A} v.
Arguments Raise {A} e.

Definition M (A : Type) : Type := trace -> completion A * trace.

Definition ret {A : Type} (a : A) : M A := fun tr => (Normal a, tr).

Definition bind {A B : Type} (m : M A) (k : A -> M B) : M B := fun tr =>
  match m tr with
  | (Normal a, tr') => k a tr'
  | (Return v, tr') => (Return v, tr')
  | (Raise e, tr') => (Raise e, tr')
  end.

(** [return v] *)
Definition return_ {A : Type} (v : Z) : M A := fun tr => (Return v, tr).

(** [raise e] *)
Definition raise {A : Type} (e : exn) : M A := fun tr => (Raise e, tr).

Definition emit (ev : event) : M unit := fun tr => (Normal tt, tr ++ [ev]).

(** [try: body  except cls as e: handler e] *)
Definition try_except {A : Type} (cls : string) (body : M A)
    (handler : exn -> M A) : M A := fun tr =>
  match body tr with
  | (Raise e, tr') =>
      if isinstance e cls then handler e tr' else (Raise e, tr')
  | other => other
  end.

Declare Scope py_scope.
Delimit Scope py_scope with py.
Notation "x <- m ;; k" := (bind m (fun x => k))
  (at level 61, m at next level, right associativity) : py_scope.
Notation "m ;; k" := (bind m (fun _ => k))
  (at level 61, right associativity) : py_scope.
Local Open Scope py_scope.

Definition print (text : string) : M unit := emit (EvPrint text).
Definition print_stderr (text : string) : M unit := emit (EvPrintStderr text).

(** ** Configuration

    The attributes of the namespace returned by [parse_arguments] that
    [feed_sync] reads. *)
Record Args : Type := mkArgs {
  private_directory : option string;
  verbose : Z;
  compression_level : Z;
  type : string;
  openvas_lock_file : string;
  gvmd_lock_file : string;
  notus_url : string;
  notus_destination : string;
  nasl_url : string;
  nasl_destination : string;
  scap_data_url : string;
  scap_data_destination : string;
  cert_data_url : string;
  cert_data_destination : string;
  report_formats_url : string;
  report_formats_destination : string;
  scan_configs_url : string;
  scan_configs_destination : string;
  port_lists_url : string;
  port_lists_destination : string;
  no_wait : bool;
  wait_interval : Z;
  fail_fast : bool
}.

(** The keyword arguments of [Rsync(...)]. *)
Record Rsync : Type := mkRsync {
  rsync_private_subdir : option string;
  rsync_verbose : bool;
  rsync_compression_level : Z
}.

(** ** The orchestrator (main.py, lines 71-167) *)

Section Orchestrator.

(** The collaborators.  [rsync_sync] and [flock_wait_enter] may answer
    differently from one call to the next: they see the trace so far. *)
Variable geteuid : Z.
Variable parse_arguments : exn + Args.
Variable rsync_sync : Rsync -> trace -> string -> string -> option exn.
Variable flock_wait_enter :
  trace -> string -> bool -> option Z -> option exn.

(** [os.geteuid() == 0] (lines 32-36) *)
Definition is_root : bool := geteuid =? 0.

(** [parser.parse_arguments()] *)
Definition call_parse_arguments : M Args := fun tr =>
  match parse_arguments with
  | inr args => (Normal args, tr ++ [EvParseArguments])
  | inl e => (Raise e, tr ++ [EvParseArguments])
  end.

(** A call of [filter_syncs], marked in the trace. *)
Definition call_filter_syncs (lock : string) (feed_type : string)
    (candidates : list Sync) : M SyncList :=
  emit (EvFilterSyncs lock feed_type) ;;
  ret (filter_syncs lock feed_type candidates).

(** [await rsync.sync(url=url, destination=destination)] *)
Definition await_rsync_sync (rsync : Rsync) (url destination : string)
    : M unit := fun tr =>
  let raised := rsync_sync rsync tr url destination in
  (match raised with None => Normal tt | Some e => Raise e end,
   tr ++ [EvRsyncSync url destination raised]).

(** Modelled from the spec: the guard returned by [flock_wait], which is
    defined in [helper.py] and not in [main.py].  Entering it either
    acquires the lock or raises; once it is acquired, the lock is released
    when the block of the [async with] statement is left, however it is
    left, and the way the block ended is passed on. *)
Definition async_with_flock_wait {A : Type} (path : string)
    (verbose : bool) (wait_interval : option Z) (body : M A) : M A :=
  fun tr =>
    match flock_wait_enter tr path verbose wait_interval with
    | Some e =>
        (Raise e, tr ++ [EvFlockWait path verbose wait_interval (Some e)])
    | None =>
        let '(c, tr') :=
          body (tr ++ [EvFlockWait path verbose wait_interval None]) in
        (c, tr' ++ [EvFlockRelease path])
    end.

(** The text of the f-string of lines 157-158. *)
Definition downloading (sync : Sync) : string :=
  ("Downloading " ++ name sync ++ " from " ++ url sync ++ " to "
     ++ destination sync)%string.

(** The [try] statement of lines 154-165, one round of the inner loop.
    The result is the value of [has_error] after it. *)
Definition try_sync (args : Args) (rsync : Rsync) (has_error : bool)
    (sync : Sync) : M bool :=
  try_except "RsyncError"
    ((if verbose args >=? 1 then print (downloading sync) else ret tt) ;;
     await_rsync_sync rsync (url sync) (destination sync) ;;
     ret has_error)
    (fun e =>
       print_stderr (exn_stderr e) ;;
       if fail_fast args then return_ 1 else ret true).

(** [for sync in sync_list.syncs: ...] (line 153) *)
Fixpoint for_syncs (args : Args) (rsync : Rsync) (l : list Sync)
    (has_error : bool) : M bool :=
  match l with
  | [] => ret has_error
  | sync :: rest =>
      has_error' <- try_sync args rsync has_error sync ;;
      for_syncs args rsync rest has_error'
  end.

(** The lock scope of one group (lines 148-165). *)
Definition locked_syncs (args : Args) (rsync : Rsync)
    (wait : option Z) (sync_list : SyncList) (has_error : bool) : M bool :=
  async_with_flock_wait (lock_file sync_list) (verbose args >=? 2) wait
    (for_syncs args rsync (syncs sync_list) has_error).

(** [for sync_list in (openvas_syncs, gvmd_syncs): ...] (line 144) *)
Fixpoint for_sync_lists (args : Args) (rsync : Rsync)
    (wait : option Z) (l : list SyncList) (has_error : bool) : M bool :=
  match l with
  | [] => ret has_error
  | sync_list :: rest =>
      match syncs sync_list with
      | [] => for_sync_lists args rsync wait rest has_error
      | _ :: _ =>
          has_error' <- locked_syncs args rsync wait sync_list has_error ;;
          for_sync_lists args rsync wait rest has_error'
      end
  end.

(** The candidates handed to the two calls of [filter_syncs]. *)
Definition openvas_candidates (args : Args) : list Sync :=
  [ {| name := "Notus files"; types := ["notus"; "nvt"; "all"];
       url := notus_url args; destination := notus_destination args |};
    {| name := "NASL files"; types := ["nasl"; "nvt"; "all"];
       url := nasl_url args; destination := nasl_destination args |} ].

Definition gvmd_candidates (args : Args) : list Sync :=
  [ {| name := "SCAP data"; types := ["scap"; "all"];
       url := scap_data_url args;
       destination := scap_data_destination args |};
    {| name := "CERT-Bund data"; types := ["cert"; "all"];
       url := cert_data_url args;
       destination := cert_data_destination args |};
    {| name := "report formats";
       types := ["report-format"; "gvmd-data"; "all"];
       url := report_formats_url args;
       destination := report_formats_destination args |};
    {| name := "scan configs";
       types := ["scan-config"; "gvmd-data"; "all"];
       url := scan_configs_url args;
       destination := scan_configs_destination args |};
    {| name := "port lists"; types := ["port-list"; "gvmd-data"; "all"];
       url := port_lists_url args;
       destination := port_lists_destination args |} ].

Definition root_message : string :=
  "The sync script should not be run as root. Running the script as root may cause several hard to find permissions issues.".

(** [async def feed_sync() -> int].  Every path through it ends in
    [return] or [raise], so no value falls out of its body. *)
Definition feed_sync : M Empty_set :=
  if is_root then raise (GreenboneFeedSyncError root_message)
  else
    args <- call_parse_arguments ;;
    let rsync :=
      {| rsync_private_subdir := private_directory args;
         rsync_verbose := verbose args >=? 3;
         rsync_compression_level := compression_level args |} in
    openvas_syncs <-
      call_filter_syncs (openvas_lock_file args) (type args)
        (openvas_candidates args) ;;
    gvmd_syncs <-
      call_filter_syncs (gvmd_lock_file args) (type args)
        (gvmd_candidates args) ;;
    let has_error := false in
    let wait :=
      if no_wait args then None else Some (wait_interval args) in
    has_error <-
      for_sync_lists args rsync wait [openvas_syncs; gvmd_syncs]
        has_error ;;
    return_ (if has_error : bool then 1 else 0).

(** ** The entry point (main.py, lines 170-180) *)

(** How the process ends: [sys.exit(status)], or an exception that no
    handler of [main] catches. *)
Inductive process_end : Type :=
| Exit (status : Z)
| Uncaught (e : exn).

(** [asyncio.run(feed_sync())] runs the coroutine from the start of the
    process; [sys.exit] raises [SystemExit], which neither handler
    catches. *)
Definition main : process_end * trace :=
  match feed_sync [] with
  | (Normal nothing, _) => match nothing with end
  | (Return v, tr) => (Exit v, tr)
  | (Raise e, tr) =>
      if isinstance e "GreenboneFeedSyncError" then
        (Exit 1, tr ++ [EvPrintStderr (exn_str e)])
      else if isinstance e "KeyboardInterrupt" then (Exit 1, tr)
      else (Uncaught e, tr)
  end.

End Orchestrator.

(** ** The shape of a run

    What a run appends to the trace and how it ends, told without the
    collaborators: each way the inner loop, and the loop over the groups, can
    go is one rule.  The functions above are shown to follow these rules
    ([for_syncs_run], [for_sync_lists_run], [feed_sync_run]); the properties
    of runs are then proved by induction on the rules. *)

(** What the [try] block prints before the transfer (lines 155-159). *)
Definition announce (args : Args) (sync : Sync) : list event :=
  if verbose args >=? 1 then [EvPrint (downloading sync)] else [].

Inductive syncs_run (args : Args)
  : list Sync -> bool -> list event -> completion bool -> Prop :=
| syncs_done (h : bool) :
    syncs_run args [] h [] (Normal h)
| syncs_ok (s : Sync) (l : list Sync) (h : bool) ext c :
    syncs_run args l h ext c ->
    syncs_run args (s :: l) h
      (announce args s ++ EvRsyncSync (url s) (destination s) None :: ext) c
| syncs_error_stop (s : Sync) (l : list Sync) (h : bool) (e : exn) :
    isinstance e "RsyncError" = true ->
    fail_fast args = true ->
    syncs_run args (s :: l) h
      (announce args s
         ++ [EvRsyncSync (url s) (destination s) (Some e);
             EvPrintStderr (exn_stderr e)])
      (Return 1)
| syncs_error_go (s : Sync) (l : list Sync) (h : bool) (e : exn) ext c :
    isinstance e "RsyncError" = true ->
    fail_fast args = false ->
    syncs_run args l true ext c ->
    syncs_run args (s :: l) h
      (announce args s
         ++ EvRsyncSync (url s) (destination s) (Some e)
         :: EvPrintStderr (exn_stderr e) :: ext)
      c
| syncs_raise (s : Sync) (l : list Sync) (h : bool) (e : exn) :
    isinstance e "RsyncError" = false ->
    syncs_run args (s :: l) h
      (announce args s ++ [EvRsyncSync (url s) (destination s) (Some e)])
      (Raise e).

Inductive lists_run (args : Args) (wait : option Z)
  : list SyncList -> bool -> list event -> completion bool -> Prop :=
| lists_done (h : bool) :
    lists_run args wait [] h [] (Normal h)
| lists_skip (g : SyncList) (gs : list SyncList) (h : bool) ext c :
    syncs g = [] ->
    lists_run args wait gs h ext c ->
    lists_run args wait (g :: gs) h ext c
| lists_lock_raise (g : SyncList) (gs : list SyncList) (h : bool) (e : exn) :
    syncs g <> [] ->
    lists_run args wait (g :: gs) h
      [EvFlockWait (lock_file g) (verbose args >=? 2) wait (Some e)]
      (Raise e)
| lists_next (g : SyncList) (gs : list SyncList) (h h' : bool) ext1 ext2 c :
    syncs g <> [] ->
    syncs_run args (syncs g) h ext1 (Normal h') ->
    lists_run args wait gs h' ext2 c ->
    lists_run args wait (g :: gs) h
      (EvFlockWait (lock_file g) (verbose args >=? 2) wait None
         :: ext1 ++ EvFlockRelease (lock_file g) :: ext2)
      c
| lists_return (g : SyncList) (gs : list SyncList) (h : bool) ext1 v :
    syncs g <> [] ->
    syncs_run args (syncs g) h ext1 (Return v) ->
    lists_run args wait (g :: gs) h
      (EvFlockWait (lock_file g) (verbose args >=? 2) wait None
         :: ext1 ++ [EvFlockRelease (lock_file g)])
      (Return v)
| lists_raise (g : SyncList) (gs : list SyncList) (h : bool) ext1 e :
    syncs g <> [] ->
    syncs_run args (syncs g) h ext1 (Raise e) ->
    lists_run args wait (g :: gs) h
      (EvFlockWait (lock_file g) (verbose args >=? 2) wait None
         :: ext1 ++ [EvFlockRelease (lock_file g)])
      (Raise e).

(** The two groups of a run, and the wait interval handed to [flock_wait]. *)
Definition sync_lists_of (args : Args) : list SyncList :=
  [ filter_syncs (openvas_lock_file args) (type args)
      (openvas_candidates args);
    filter_syncs (gvmd_lock_file args) (type args)
      (gvmd_candidates args) ].

Definition wait_of (args : Args) : option Z :=
  if no_wait args then None else Some (wait_interval args).

(** What [feed_sync] appends before the loop over the groups. *)
Definition prologue (args : Args) : list event :=
  [ EvParseArguments;
    EvFilterSyncs (openvas_lock_file args) (type args);
    EvFilterSyncs (gvmd_lock_file args) (type args) ].

Inductive feed_sync_shape (geteuid : Z) (parse_arguments : exn + Args)
  : completion Empty_set -> trace -> Prop :=
| shape_root :
    geteuid = 0 ->
    feed_sync_shape geteuid parse_arguments
      (Raise (GreenboneFeedSyncError root_message)) []
| shape_parse_raise (e : exn) :
    geteuid <> 0 ->
    parse_arguments = inl e ->
    feed_sync_shape geteuid parse_arguments (Raise e) [EvParseArguments]
| shape_end (args : Args) (h : bool) ext :
    geteuid <> 0 ->
    parse_arguments = inr args ->
    lists_run args (wait_of args) (sync_lists_of args) false ext (Normal h) ->
    feed_sync_shape geteuid parse_arguments
      (Return (if h then 1 else 0)) (prologue args ++ ext)
| shape_return (args : Args) (v : Z) ext :
    geteuid <> 0 ->
    parse_arguments = inr args ->
    lists_run args (wait_of args) (sync_lists_of args) false ext (Return v) ->
    feed_sync_shape geteuid parse_arguments (Return v) (prologue args ++ ext)
| shape_raise (args : Args) (e : exn) ext :
    geteuid <> 0 ->
    parse_arguments = inr args ->
    lists_run args (wait_of args) (sync_lists_of args) false ext (Raise e) ->
    feed_sync_shape geteuid parse_arguments (Raise e) (prologue args ++ ext).

Section Runs.

Variable geteuid : Z.
Variable parse_arguments : exn + Args.
Variable rsync_sync : Rsync -> trace -> string -> string -> option exn.
Variable flock_wait_enter :
  trace -> string -> bool -> option Z -> option exn.

Lemma try_sync_eq (args : Args) (rsync : Rsync) (h : bool) (s : Sync)
    (tr : trace) :
  try_sync rsync_sync args rsync h s tr =
  let tr1 := tr ++ announce args s in
  match rsync_sync rsync tr1 (url s) (destination s) with
  | None => (Normal h, tr1 ++ [EvRsyncSync (url s) (destination s) None])
  | Some e =>
      if isinstance e "RsyncError" then
        (if fail_fast args then Return 1 else Normal true,
         tr1 ++ [EvRsyncSync (url s) (destination s) (Some e);
                 EvPrintStderr (exn_stderr e)])
      else (Raise e, tr1 ++ [EvRsyncSync (url s) (destination s) (Some e)])
  end.
Proof.
  unfold try_sync, try_except, bind, print, print_stderr, emit,
    await_rsync_sync, ret, return_, announce.
  destruct (verbose args >=? 1); cbn zeta; rewrite ?app_nil_r;
    destruct (rsync_sync rsync _ (url s) (destination s)) as [e|];
    try reflexivity;
    destruct (isinstance e "RsyncError"); try reflexivity;
    destruct (fail_fast args); now rewrite <- app_assoc.
Qed.

(** The inner loop follows the rules of [syncs_run]. *)
Lemma for_syncs_run (args : Args) (rsync : Rsync) (l : list Sync) :
  forall (h : bool) (tr : trace),
  exists ext c,
    for_syncs rsync_sync args rsync l h tr = (c, tr ++ ext)
    /\ syncs_run args l h ext c.
Proof.
  induction l as [|s l IH]; intros h tr.
  - exists [], (Normal h). cbn. rewrite app_nil_r. split; [reflexivity | constructor].
  - cbn [for_syncs]. unfold bind. rewrite try_sync_eq. cbn zeta.
    destruct (rsync_sync rsync (tr ++ announce args s) (url s) (destination s))
      as [e|].
    + destruct (isinstance e "RsyncError") eqn:Hinst.
      * destruct (fail_fast args) eqn:Hff.
        -- eexists _, _. split; [now rewrite <- app_assoc |].
           now apply syncs_error_stop.
        -- destruct (IH true
             ((tr ++ announce args s)
                ++ [EvRsyncSync (url s) (destination s) (Some e);
                    EvPrintStderr (exn_stderr e)]))
             as [ext [c [Heq Hrun]]].
           rewrite Heq. eexists _, c. split.
           ++ now rewrite <- !app_assoc.
           ++ now apply syncs_error_go.
      * eexists _, _. split; [now rewrite <- app_assoc |].
        now apply syncs_raise.
    + destruct (IH h
        ((tr ++ announce args s)
           ++ [EvRsyncSync (url s) (destination s) None]))
        as [ext [c [Heq Hrun]]].
      rewrite Heq. eexists _, c. split.
      * now rewrite <- !app_assoc.
      * now apply syncs_ok.
Qed.

(** The loop over the groups follows the rules of [lists_run]. *)
Lemma for_sync_lists_run (args : Args) (rsync : Rsync) (wait : option Z)
    (gs : list SyncList) :
  forall (h : bool) (tr : trace),
  exists ext c,
    for_sync_lists rsync_sync flock_wait_enter args rsync wait gs h tr
    = (c, tr ++ ext)
    /\ lists_run args wait gs h ext c.
Proof.
  induction gs as [|g gs IH]; intros h tr.
  - exists [], (Normal h). cbn. rewrite app_nil_r.
    split; [reflexivity | constructor].
  - cbn [for_sync_lists]. destruct (syncs g) as [|s0 l0] eqn:Hsyncs.
    + destruct (IH h tr) as [ext [c [Heq Hrun]]].
      exists ext, c. split; [exact Heq | now apply lists_skip].
    + assert (Hne : syncs g <> []) by (rewrite Hsyncs; discriminate).
      unfold bind, locked_syncs, async_with_flock_wait.
      destruct (flock_wait_enter tr (lock_file g) (verbose args >=? 2) wait)
        as [e|].
      * eexists _, _. split; [reflexivity | now apply lists_lock_raise].
      * destruct (for_syncs_run args rsync (syncs g) h
          (tr ++ [EvFlockWait (lock_file g) (verbose args >=? 2) wait None]))
          as [ext1 [c1 [Heq1 Hrun1]]].
        rewrite Heq1.
        destruct c1 as [h' | v | e].
        -- destruct (IH h'
             (((tr ++ [EvFlockWait (lock_file g) (verbose args >=? 2) wait None])
                 ++ ext1) ++ [EvFlockRelease (lock_file g)]))
             as [ext2 [c [Heq2 Hrun2]]].
           rewrite Heq2. eexists _, c. split.
           ++ rewrite <- !app_assoc. cbn [app]. reflexivity.
           ++ now apply lists_next with (h' := h').
        -- eexists _, _. split.
           ++ rewrite <- !app_assoc. cbn [app]. reflexivity.
           ++ now apply lists_return.
        -- eexists _, _. split.
           ++ rewrite <- !app_assoc. cbn [app]. reflexivity.
           ++ now apply lists_raise.
Qed.

(** [feed_sync], run from the start of the process, has one of the shapes
    of [feed_sync_shape]. *)
Lemma feed_sync_run :
  feed_sync_shape geteuid parse_arguments
    (fst (feed_sync geteuid parse_arguments rsync_sync flock_wait_enter []))
    (snd (feed_sync geteuid parse_arguments rsync_sync flock_wait_enter [])).
Proof.
  unfold feed_sync, is_root.
  destruct (geteuid =? 0) eqn:Hroot.
  - apply Z.eqb_eq in Hroot. cbn. now apply shape_root.
  - apply Z.eqb_neq in Hroot.
    unfold bind at 1. unfold call_parse_arguments.
    destruct parse_arguments as [e | args] eqn:Hparse.
    + cbn. now apply shape_parse_raise.
    + unfold call_filter_syncs, bind, emit, ret, return_. cbn [app].
      match goal with
      | |- context [for_sync_lists _ _ _ ?r ?w ?gs ?h ?tr] =>
          destruct (for_sync_lists_run args r w gs h tr)
            as [ext [c [Heq Hrun]]]
      end.
      rewrite Heq. destruct c as [h | v | e]; cbn [fst snd].
      * now apply (shape_end geteuid (inr args) args h ext).
      * now apply (shape_return geteuid (inr args) args v ext).
      * now apply (shape_raise geteuid (inr args) args e ext).
Qed.

End Runs.

(** ** Reading a trace *)

(** The source and destination of a transfer. *)
Definition target (s : Sync) : string * string := (url s, destination s).

(** The transfers of a trace, in the order in which they were started. *)
Definition transfers (tr : list event) : list (string * string) :=
  flat_map
    (fun ev =>
       match ev with
       | EvRsyncSync u d _ => [(u, d)]
       | _ => []
       end) tr.

(** The event is a transfer that raised an [RsyncError]. *)
Definition transfer_error (ev : event) : bool :=
  match ev with
  | EvRsyncSync _ _ (Some e) => isinstance e "RsyncError"
  | _ => false
  end.

(** The event is a collaborator raising something that is not an
    [RsyncError] out of a transfer, or anything out of entering a lock. *)
Definition raises_other (ev : event) : bool :=
  match ev with
  | EvRsyncSync _ _ (Some e) => negb (isinstance e "RsyncError")
  | EvFlockWait _ _ _ (Some _) => true
  | _ => false
  end.

(** Lock operations: entering the guard of a lock file, and leaving it. *)
Inductive lock_op : Type :=
| Enter (path : string)
| Leave (path : string).

Definition lock_ops (tr : list event) : list lock_op :=
  flat_map
    (fun ev =>
       match ev with
       | EvFlockWait path _ _ _ => [Enter path]
       | EvFlockRelease path => [Leave path]
       | _ => []
       end) tr.

(** The locks held after a trace: an acquisition adds the lock file, a
    release takes one occurrence of it away. *)
Fixpoint remove_one (path : string) (held : list string) : list string :=
  match held with
  | [] => []
  | p :: rest => if String.eqb path p then rest else p :: remove_one path rest
  end.

Definition hold (held : list string) (ev : event) : list string :=
  match ev with
  | EvFlockWait path _ _ None => path :: held
  | EvFlockRelease path => remove_one path held
  | _ => held
  end.

Definition held_after (tr : list event) : list string :=
  fold_left hold tr [].

(** A property of every event of a trace together with what follows it. *)
Fixpoint each_suffix (Q : event -> list event -> Prop) (tr : list event)
    : Prop :=
  match tr with
  | [] => True
  | ev :: rest => Q ev rest /\ each_suffix Q rest
  end.

Lemma each_suffix_split (Q : event -> list event -> Prop) (tr : list event) :
  each_suffix Q tr ->
  forall pre ev post, tr = pre ++ ev :: post -> Q ev post.
Proof.
  intros H pre. revert tr H.
  induction pre as [|p pre IH]; intros tr H ev post ->; cbn in H.
  - exact (proj1 H).
  - exact (IH _ (proj2 H) ev post eq_refl).
Qed.

Lemma each_suffix_app (Q1 Q2 : event -> list event -> Prop)
    (a b : list event) :
  each_suffix Q1 a ->
  (forall ev post, Q1 ev post -> Q2 ev (post ++ b)) ->
  each_suffix Q2 b ->
  each_suffix Q2 (a ++ b).
Proof.
  intros Ha Himp Hb. induction a as [|x a IH]; [exact Hb |].
  cbn in Ha |- *. destruct Ha as [Hx Ha]. split; [now apply Himp | now apply IH].
Qed.

Lemma each_suffix_impl (Q1 Q2 : event -> list event -> Prop)
    (a : list event) :
  each_suffix Q1 a ->
  (forall ev post, Q1 ev post -> Q2 ev post) ->
  each_suffix Q2 a.
Proof.
  intros Ha Himp. rewrite <- (app_nil_r a).
  apply each_suffix_app with (Q1 := Q1); [assumption | | exact I].
  intros ev post H. rewrite app_nil_r. now apply Himp.
Qed.

(** What follows a failed transfer.  After an [RsyncError] the diagnostic
    output is printed to the error stream, and under fail-fast the block
    ends there with [return 1].  Any other exception leaves the block at
    once.  [ending] says what may still follow the end of the block. *)
Definition after_failure {A : Type} (args : Args)
    (ending : list event -> Prop) (c : completion A)
    (ev : event) (post : list event) : Prop :=
  match ev with
  | EvRsyncSync _ _ (Some e) =>
      if isinstance e "RsyncError" then
        (exists post', post = EvPrintStderr (exn_stderr e) :: post')
        /\ (fail_fast args = true ->
            c = Return 1
            /\ exists t, post = EvPrintStderr (exn_stderr e) :: t /\ ending t)
      else c = Raise e /\ ending post
  | _ => True
  end.

Definition released (t : list event) : Prop :=
  exists path, t = [EvFlockRelease path].

Lemma each_suffix_announce (Q : event -> list event -> Prop) (args : Args)
    (s : Sync) (b : list event) :
  (forall text post, Q (EvPrint text) post) ->
  each_suffix Q b ->
  each_suffix Q (announce args s ++ b).
Proof.
  intros Hprint Hb. unfold announce.
  destruct (verbose args >=? 1); cbn; [split; [apply Hprint | exact Hb] | exact Hb].
Qed.

Lemma syncs_run_after_failure (args : Args) l h ext c :
  syncs_run args l h ext c ->
  each_suffix (after_failure args (eq []) c) ext.
Proof.
  induction 1 as [h | s l h ext c Hrun IH | s l h e Hinst Hff
                  | s l h e ext c Hinst Hff Hrun IH | s l h e Hinst];
    try (apply each_suffix_announce; [intros; exact I |]);
    cbn [each_suffix after_failure]; try rewrite Hinst.
  - exact I.
  - split; [exact I | exact IH].
  - split; [| exact (conj I I)].
    split; [now eexists | intros _; split; [reflexivity | now eexists]].
  - split; [| exact (conj I IH)].
    split; [now eexists | intros Htrue; congruence].
  - split; [now split | exact I].
Qed.

Lemma after_failure_in_block {A B : Type} (args : Args) (c1 : completion A)
    (c : completion B) (b : list event) :
  (c1 = Return 1 -> c = Return 1 /\ released b) ->
  (forall e, c1 = Raise e -> c = Raise e /\ released b) ->
  forall ev post,
    after_failure args (eq []) c1 ev post ->
    after_failure args released c ev (post ++ b).
Proof.
  intros Hret Hraise ev post. unfold after_failure.
  destruct ev as [| | | | | |u d [e|]]; try tauto.
  destruct (isinstance e "RsyncError").
  - intros [[post' ->] Hff]. split; [now exists (post' ++ b) |].
    intros Htrue. destruct (Hff Htrue) as [Hc [t [Heq <-]]].
    injection Heq as ->. destruct (Hret Hc) as [-> Hb].
    split; [reflexivity | now exists b].
  - intros [Hc <-]. destruct (Hraise e Hc) as [-> Hb]. now split.
Qed.

Lemma lists_run_after_failure (args : Args) wait gs h ext c :
  lists_run args wait gs h ext c ->
  each_suffix (after_failure args released c) ext.
Proof.
  induction 1 as [h | g gs h ext c Hempty Hrun IH | g gs h e Hne
                  | g gs h h' ext1 ext2 c Hne H1 Hrun IH
                  | g gs h ext1 v Hne H1 | g gs h ext1 e Hne H1];
    cbn [each_suffix]; try (split; [exact I |]).
  - exact I.
  - exact IH.
  - exact I.
  - apply each_suffix_app with (Q1 := after_failure args (eq []) (Normal h')).
    + now apply syncs_run_after_failure with (l := syncs g) (h := h).
    + apply after_failure_in_block; [discriminate | intros; discriminate].
    + cbn [each_suffix]. split; [exact I | exact IH].
  - apply each_suffix_app with (Q1 := after_failure args (eq []) (@Return bool v)).
    + now apply syncs_run_after_failure with (l := syncs g) (h := h).
    + apply after_failure_in_block.
      * intros ->. split; [reflexivity | now exists (lock_file g)].
      * intros; discriminate.
    + cbn. split; exact I.
  - apply each_suffix_app with (Q1 := after_failure args (eq []) (@Raise bool e)).
    + now apply syncs_run_after_failure with (l := syncs g) (h := h).
    + apply after_failure_in_block.
      * discriminate.
      * intros e' He'. injection He' as <-.
        split; [reflexivity | now exists (lock_file g)].
    + cbn. split; exact I.
Qed.

Lemma after_failure_convert {A B : Type} (args : Args)
    (ending : list event -> Prop) (c1 : completion A) (c2 : completion B) :
  (c1 = Return 1 -> c2 = Return 1) ->
  (forall e, c1 = Raise e -> c2 = Raise e) ->
  forall ev post,
    after_failure args ending c1 ev post ->
    after_failure args ending c2 ev post.
Proof.
  intros Hret Hraise ev post. unfold after_failure.
  destruct ev as [| | | | | |u d [e|]]; try tauto.
  destruct (isinstance e "RsyncError").
  - intros [Hpost Hff]. split; [exact Hpost |].
    intros Htrue. destruct (Hff Htrue) as [Hc Ht]. split; [now apply Hret | exact Ht].
  - intros [Hc He]. split; [now apply Hraise | exact He].
Qed.

Lemma feed_sync_after_failure geteuid parse_arguments c tr :
  feed_sync_shape geteuid parse_arguments c tr ->
  forall args, parse_arguments = inr args ->
    each_suffix (after_failure args released c) tr.
Proof.
  intros [Hroot | e Hroot Hparse | args0 h ext Hroot Hparse Hrun
          | args0 v ext Hroot Hparse Hrun | args0 e ext Hroot Hparse Hrun]
    args Hargs; try (cbn; tauto);
    assert (args0 = args) as -> by congruence;
    cbn [prologue app each_suffix]; repeat (split; [exact I |]);
    apply lists_run_after_failure in Hrun;
    apply each_suffix_impl with (1 := Hrun);
    apply after_failure_convert; intros; (discriminate || congruence).
Qed.

(** *** Transfers follow the order of the specs *)

Lemma transfers_app (a b : list event) :
  transfers (a ++ b) = transfers a ++ transfers b.
Proof. apply flat_map_app. Qed.

Lemma transfers_announce (args : Args) (s : Sync) :
  transfers (announce args s) = [].
Proof. unfold announce. now destruct (verbose args >=? 1). Qed.

(** The targets of all specs of the groups, in the order of the loops. *)
Definition targets (gs : list SyncList) : list (string * string) :=
  map target (flat_map syncs gs).

Lemma syncs_run_transfers (args : Args) l h ext c :
  syncs_run args l h ext c ->
  exists rest,
    map target l = transfers ext ++ rest
    /\ (forall h', c = Normal h' -> rest = []).
Proof.
  induction 1 as [h | s l h ext c Hrun [rest [IH1 IH2]] | s l h e Hinst Hff
                  | s l h e ext c Hinst Hff Hrun [rest [IH1 IH2]]
                  | s l h e Hinst];
    rewrite ?transfers_app, ?transfers_announce; cbn [app map].
  - exists []. now split.
  - exists rest. split; [| exact IH2].
    change (transfers (EvRsyncSync (url s) (destination s) None :: ext))
      with (target s :: transfers ext).
    cbn [app]. now rewrite IH1.
  - exists (map target l). split; [reflexivity | discriminate].
  - exists rest. split; [| exact IH2].
    change (transfers (EvRsyncSync (url s) (destination s) (Some e)
                         :: EvPrintStderr (exn_stderr e) :: ext))
      with (target s :: transfers ext).
    cbn [app]. now rewrite IH1.
  - exists (map target l). split; [reflexivity | discriminate].
Qed.

Lemma lists_run_transfers (args : Args) wait gs h ext c :
  lists_run args wait gs h ext c ->
  exists rest,
    targets gs = transfers ext ++ rest
    /\ (forall h', c = Normal h' -> rest = []).
Proof.
  unfold targets.
  induction 1 as [h | g gs h ext c Hempty Hrun [rest [IH1 IH2]] | g gs h e Hne
                  | g gs h h' ext1 ext2 c Hne H1 Hrun [rest [IH1 IH2]]
                  | g gs h ext1 v Hne H1 | g gs h ext1 e Hne H1];
    cbn [flat_map]; rewrite ?map_app.
  - exists []. now split.
  - exists rest. rewrite Hempty. cbn [map app]. now split.
  - eexists. split; [reflexivity | discriminate].
  - apply syncs_run_transfers in H1. destruct H1 as [rest1 [E1 N1]].
    rewrite (N1 h' eq_refl), app_nil_r in E1.
    exists rest. split; [| exact IH2].
    change (transfers (?a :: ext1 ++ ?b :: ext2))
      with (transfers (ext1 ++ b :: ext2)).
    rewrite transfers_app.
    change (transfers (EvFlockRelease (lock_file g) :: ext2))
      with (transfers ext2).
    now rewrite E1, IH1, app_assoc.
  - apply syncs_run_transfers in H1. destruct H1 as [rest1 [E1 _]].
    exists (rest1 ++ map target (flat_map syncs gs)). split; [| discriminate].
    change (transfers (?a :: ext1 ++ [?b])) with (transfers (ext1 ++ [b])).
    rewrite transfers_app. cbn [transfers flat_map app]. rewrite app_nil_r.
    now rewrite E1, <- app_assoc.
  - apply syncs_run_transfers in H1. destruct H1 as [rest1 [E1 _]].
    exists (rest1 ++ map target (flat_map syncs gs)). split; [| discriminate].
    change (transfers (?a :: ext1 ++ [?b])) with (transfers (ext1 ++ [b])).
    rewrite transfers_app. cbn [transfers flat_map app]. rewrite app_nil_r.
    now rewrite E1, <- app_assoc.
Qed.

(** *** Lock operations *)

Lemma lock_ops_app (a b : list event) :
  lock_ops (a ++ b) = lock_ops a ++ lock_ops b.
Proof. apply flat_map_app. Qed.

Lemma lock_ops_announce (args : Args) (s : Sync) :
  lock_ops (announce args s) = [].
Proof. unfold announce. now destruct (verbose args >=? 1). Qed.

(** The inner loop performs no lock operation. *)
Lemma syncs_run_lock_ops (args : Args) l h ext c :
  syncs_run args l h ext c -> lock_ops ext = [].
Proof.
  induction 1; rewrite ?lock_ops_app, ?lock_ops_announce; cbn; auto.
Qed.

(** The lock operations a complete pass over the groups performs: the lock
    of each group that has syncs is entered and left, in the order of the
    groups; a group without syncs contributes nothing. *)
Definition expected_lock_ops (gs : list SyncList) : list lock_op :=
  flat_map
    (fun g =>
       match syncs g with
       | [] => []
       | _ :: _ => [Enter (lock_file g); Leave (lock_file g)]
       end) gs.

Lemma expected_lock_ops_cons (g : SyncList) (gs : list SyncList) :
  syncs g <> [] ->
  expected_lock_ops (g :: gs)
  = Enter (lock_file g) :: Leave (lock_file g) :: expected_lock_ops gs.
Proof.
  intros Hne. unfold expected_lock_ops. cbn [flat_map].
  destruct (syncs g); [congruence | reflexivity].
Qed.

Lemma lists_run_lock_ops (args : Args) wait gs h ext c :
  lists_run args wait gs h ext c ->
  exists rest, expected_lock_ops gs = lock_ops ext ++ rest.
Proof.
  induction 1 as [h | g gs h ext c Hempty Hrun [rest IH] | g gs h e Hne
                  | g gs h h' ext1 ext2 c Hne H1 Hrun [rest IH]
                  | g gs h ext1 v Hne H1 | g gs h ext1 e Hne H1];
    try rewrite (expected_lock_ops_cons g gs Hne);
    try (apply syncs_run_lock_ops in H1).
  - now exists [].
  - exists rest. unfold expected_lock_ops in *. cbn [flat_map].
    now rewrite Hempty.
  - eexists. reflexivity.
  - exists rest.
    change (lock_ops (?a :: ext1 ++ ?b :: ext2))
      with (Enter (lock_file g) :: lock_ops (ext1 ++ b :: ext2)).
    rewrite lock_ops_app, H1. cbn [app].
    change (lock_ops (EvFlockRelease (lock_file g) :: ext2))
      with (Leave (lock_file g) :: lock_ops ext2).
    now rewrite IH.
  - exists (expected_lock_ops gs).
    change (lock_ops (?a :: ext1 ++ [?b]))
      with (Enter (lock_file g) :: lock_ops (ext1 ++ [b])).
    now rewrite lock_ops_app, H1.
  - exists (expected_lock_ops gs).
    change (lock_ops (?a :: ext1 ++ [?b]))
      with (Enter (lock_file g) :: lock_ops (ext1 ++ [b])).
    now rewrite lock_ops_app, H1.
Qed.

(** *** Locks held *)

Lemma remove_one_head (path : string) (held : list string) :
  remove_one path (path :: held) = held.
Proof. cbn. now rewrite String.eqb_refl. Qed.

(** Events that are no lock operation leave the held locks alone. *)
Lemma hold_no_lock_ops (ext : list event) :
  lock_ops ext = [] -> forall held, fold_left hold ext held = held.
Proof.
  induction ext as [|ev ext IH]; intros Hops held; [reflexivity |].
  destruct ev; cbn in Hops; try discriminate; cbn [fold_left hold]; now apply IH.
Qed.

(** A lock taken for a block is given back when the block is left. *)
Lemma hold_block (path : string) (v : bool) (wait : option Z)
    (body rest : list event) (held : list string) :
  lock_ops body = [] ->
  fold_left hold
    (EvFlockWait path v wait None :: body ++ EvFlockRelease path :: rest) held
  = fold_left hold rest held.
Proof.
  intros Hbody. cbn [fold_left hold]. rewrite fold_left_app.
  rewrite (hold_no_lock_ops body Hbody). cbn [fold_left hold].
  now rewrite remove_one_head.
Qed.

Lemma lists_run_hold (args : Args) wait gs h ext c :
  lists_run args wait gs h ext c ->
  forall held, fold_left hold ext held = held.
Proof.
  induction 1 as [h | g gs h ext c Hempty Hrun IH | g gs h e Hne
                  | g gs h h' ext1 ext2 c Hne H1 Hrun IH
                  | g gs h ext1 v Hne H1 | g gs h ext1 e Hne H1];
    intros held; try (apply syncs_run_lock_ops in H1).
  - reflexivity.
  - apply IH.
  - reflexivity.
  - rewrite hold_block by assumption. apply IH.
  - now rewrite hold_block.
  - now rewrite hold_block.
Qed.

(** *** The value of [has_error] *)

Lemma existsb_announce (args : Args) (s : Sync) :
  existsb transfer_error (announce args s) = false.
Proof. unfold announce. now destruct (verbose args >=? 1). Qed.

(** How a block ends, read off the transfers that raised an [RsyncError]:
    it falls through with [has_error] set exactly when it was set before or
    such a transfer happened, and it returns only [1], after such a
    transfer. *)
Definition tells_errors (h : bool) (ext : list event)
    (c : completion bool) : Prop :=
  match c with
  | Normal h' => h' = h || existsb transfer_error ext
  | Return v => v = 1 /\ existsb transfer_error ext = true
  | Raise _ => True
  end.

Lemma syncs_run_errors (args : Args) l h ext c :
  syncs_run args l h ext c -> tells_errors h ext c.
Proof.
  induction 1 as [h | s l h ext c Hrun IH | s l h e Hinst Hff
                  | s l h e ext c Hinst Hff Hrun IH | s l h e Hinst];
    unfold tells_errors in *;
    rewrite ?existsb_app, ?existsb_announce; cbn [existsb transfer_error orb];
    try rewrite Hinst; cbn [orb].
  - now rewrite orb_false_r.
  - exact IH.
  - now split.
  - destruct c; rewrite ?orb_true_r in *; cbn [orb] in IH; tauto.
  - exact I.
Qed.

Lemma lists_run_errors (args : Args) wait gs h ext c :
  lists_run args wait gs h ext c -> tells_errors h ext c.
Proof.
  induction 1 as [h | g gs h ext c Hempty Hrun IH | g gs h e Hne
                  | g gs h h' ext1 ext2 c Hne H1 Hrun IH
                  | g gs h ext1 v Hne H1 | g gs h ext1 e Hne H1];
    try (apply syncs_run_errors in H1);
    unfold tells_errors in *; cbn [existsb transfer_error orb];
    rewrite ?existsb_app; cbn [existsb transfer_error orb];
    rewrite ?orb_false_r.
  - reflexivity.
  - exact IH.
  - exact I.
  - subst h'. destruct c as [h2 | v | e].
    + now rewrite IH, orb_assoc.
    + destruct IH as [-> IH]. split; [reflexivity |].
      rewrite IH. apply orb_true_r.
    + exact I.
  - exact H1.
  - exact I.
Qed.

(** *** Runs in which only transfer errors are raised *)

Definition quiet (tr : list event) : Prop :=
  forall ev, In ev tr -> raises_other ev = false.

Lemma quiet_app (a b : list event) : quiet (a ++ b) -> quiet a /\ quiet b.
Proof.
  intros H. split; intros ev Hev; apply H, in_or_app; tauto.
Qed.

Lemma quiet_cons (ev : event) (tr : list event) :
  quiet (ev :: tr) -> raises_other ev = false /\ quiet tr.
Proof.
  intros H. split; [apply H; now left | intros ev' Hev'; apply H; now right].
Qed.

(** Without fail-fast, such a run of the inner loop reaches its end. *)
Lemma syncs_run_quiet (args : Args) l h ext c :
  fail_fast args = false ->
  syncs_run args l h ext c ->
  quiet ext ->
  exists h', c = Normal h'.
Proof.
  intros Hnff.
  induction 1 as [h | s l h ext c Hrun IH | s l h e Hinst Hff
                  | s l h e ext c Hinst Hff Hrun IH | s l h e Hinst];
    intros Hq.
  - now exists h.
  - apply quiet_app in Hq. destruct Hq as [_ Hq].
    apply quiet_cons in Hq. now apply IH.
  - congruence.
  - apply quiet_app in Hq. destruct Hq as [_ Hq].
    apply quiet_cons in Hq. destruct Hq as [_ Hq].
    apply quiet_cons in Hq. now apply IH.
  - apply quiet_app in Hq. destruct Hq as [_ Hq].
    apply quiet_cons in Hq. destruct Hq as [Hq _].
    cbn in Hq. rewrite Hinst in Hq. discriminate.
Qed.

Lemma lists_run_quiet (args : Args) wait gs h ext c :
  fail_fast args = false ->
  lists_run args wait gs h ext c ->
  quiet ext ->
  exists h', c = Normal h'.
Proof.
  intros Hnff.
  induction 1 as [h | g gs h ext c Hempty Hrun IH | g gs h e Hne
                  | g gs h h' ext1 ext2 c Hne H1 Hrun IH
                  | g gs h ext1 v Hne H1 | g gs h ext1 e Hne H1];
    intros Hq.
  - now exists h.
  - now apply IH.
  - apply quiet_cons in Hq. destruct Hq as [Hq _]. discriminate.
  - apply quiet_cons in Hq. destruct Hq as [_ Hq].
    apply quiet_app in Hq. destruct Hq as [_ Hq].
    apply quiet_cons in Hq. now apply IH.
  - apply quiet_cons in Hq. destruct Hq as [_ Hq].
    apply quiet_app in Hq. destruct Hq as [Hq _].
    destruct (syncs_run_quiet args _ _ _ _ Hnff H1 Hq). discriminate.
  - apply quiet_cons in Hq. destruct Hq as [_ Hq].
    apply quiet_app in Hq. destruct Hq as [Hq _].
    destruct (syncs_run_quiet args _ _ _ _ Hnff H1 Hq). discriminate.
Qed.

(** *** From the loops to [feed_sync] *)

(** A run that gets past the checks is the prologue followed by one pass
    over the two groups, and ends as that pass ends. *)
Definition ends_as (c' : completion bool) : completion Empty_set :=
  match c' with
  | Normal h => Return (if h then 1 else 0)
  | Return v => Return v
  | Raise e => Raise e
  end.

Lemma feed_sync_shape_args geteuid parse_arguments c tr (args : Args) :
  feed_sync_shape geteuid parse_arguments c tr ->
  parse_arguments = inr args ->
  (geteuid = 0 /\ tr = []
   /\ c = Raise (GreenboneFeedSyncError root_message))
  \/ (geteuid <> 0
      /\ exists ext c',
           tr = prologue args ++ ext
           /\ lists_run args (wait_of args) (sync_lists_of args) false ext c'
           /\ c = ends_as c').
Proof.
  intros [Hroot | e Hroot Hparse | args0 h ext Hroot Hparse Hrun
          | args0 v ext Hroot Hparse Hrun | args0 e ext Hroot Hparse Hrun]
    Hargs; [now left | congruence | | |];
    assert (args0 = args) as -> by congruence;
    right; (split; [assumption |]).
  - now exists ext, (Normal h).
  - now exists ext, (Return v).
  - now exists ext, (Raise e).
Qed.

(** Without arguments there is no transfer and no lock operation. *)
Lemma feed_sync_shape_no_args geteuid parse_arguments c tr :
  feed_sync_shape geteuid parse_arguments c tr ->
  (forall args, parse_arguments <> inr args) ->
  transfers tr = [] /\ lock_ops tr = [].
Proof.
  intros [Hroot | e Hroot Hparse | args0 h ext Hroot Hparse Hrun
          | args0 v ext Hroot Hparse Hrun | args0 e ext Hroot Hparse Hrun]
    Hnone; try (now split); now destruct (Hnone args0).
Qed.

Lemma transfers_prologue (args : Args) (ext : list event) :
  transfers (prologue args ++ ext) = transfers ext.
Proof. reflexivity. Qed.

Lemma lock_ops_prologue (args : Args) (ext : list event) :
  lock_ops (prologue args ++ ext) = lock_ops ext.
Proof. reflexivity. Qed.

Lemma existsb_prologue (args : Args) (ext : list event) :
  existsb transfer_error (prologue args ++ ext)
  = existsb transfer_error ext.
Proof. reflexivity. Qed.

(** The transfers of a run are an initial segment of the specs of the two
    groups. *)
Lemma feed_sync_shape_transfers geteuid parse_arguments c tr (args : Args) :
  feed_sync_shape geteuid parse_arguments c tr ->
  parse_arguments = inr args ->
  exists rest, targets (sync_lists_of args) = transfers tr ++ rest.
Proof.
  intros Hshape Hargs.
  destruct (feed_sync_shape_args _ _ _ _ args Hshape Hargs)
    as [[_ [-> _]] | [_ [ext [c' [-> [Hrun _]]]]]].
  - now eexists.
  - rewrite transfers_prologue.
    destruct (lists_run_transfers _ _ _ _ _ _ Hrun) as [rest [Hrest _]].
    now exists rest.
Qed.

(** The value returned tells whether a transfer raised an [RsyncError]. *)
Lemma feed_sync_shape_errors geteuid parse_arguments c tr :
  feed_sync_shape geteuid parse_arguments c tr ->
  forall v, c = Return v ->
    v = if existsb transfer_error tr then 1 else 0.
Proof.
  intros [Hroot | e Hroot Hparse | args0 h ext Hroot Hparse Hrun
          | args0 v0 ext Hroot Hparse Hrun | args0 e ext Hroot Hparse Hrun]
    v Hv; try discriminate;
    rewrite existsb_prologue; apply lists_run_errors in Hrun;
    cbn [tells_errors orb] in Hrun; injection Hv as <-.
  - now rewrite Hrun.
  - destruct Hrun as [-> ->]. reflexivity.
Qed.

(** No lock is held when a run has ended, however it ended. *)
Lemma feed_sync_shape_hold geteuid parse_arguments c tr :
  feed_sync_shape geteuid parse_arguments c tr -> held_after tr = [].
Proof.
  unfold held_after.
  intros [Hroot | e Hroot Hparse | args0 h ext Hroot Hparse Hrun
          | args0 v0 ext Hroot Hparse Hrun | args0 e ext Hroot Hparse Hrun];
    try reflexivity; cbn [prologue app fold_left hold];
    now apply lists_run_hold with (1 := Hrun).
Qed.

(** A failed transfer is an event of a trace that has transfers. *)
Lemma transfers_split_nonempty (pre post : list event) u d r :
  transfers (pre ++ EvRsyncSync u d r :: post) <> [].
Proof.
  rewrite transfers_app. cbn [transfers flat_map app].
  destruct (transfers pre); discriminate.
Qed.

(** ** Properties of the orchestrator *)

Section Properties.

Variable geteuid : Z.
Variable parse_arguments : exn + Args.
Variable rsync_sync : Rsync -> trace -> string -> string -> option exn.
Variable flock_wait_enter :
  trace -> string -> bool -> option Z -> option exn.

Local Notation "'run'" :=
  (feed_sync geteuid parse_arguments rsync_sync flock_wait_enter []).

(** What follows a failed transfer in a run, for the arguments of the
    run. *)
Lemma run_after_failure (pre post : list event) u d e :
  snd run = pre ++ EvRsyncSync u d (Some e) :: post ->
  exists args,
    parse_arguments = inr args
    /\ after_failure args released (fst run)
         (EvRsyncSync u d (Some e)) post.
Proof.
  intros Hsplit.
  pose proof (feed_sync_run geteuid parse_arguments rsync_sync
                flock_wait_enter) as Hshape.
  destruct parse_arguments as [e0 | args] eqn:Hparse.
  - destruct (feed_sync_shape_no_args _ _ _ _ Hshape) as [Hnone _];
      [intros args; discriminate |].
    rewrite Hsplit in Hnone. now apply transfers_split_nonempty in Hnone.
  - exists args. split; [reflexivity |].
    apply (each_suffix_split _ _
             (feed_sync_after_failure _ _ _ _ Hshape args eq_refl)
             pre _ post Hsplit).
Qed.

(** C1. With fail-fast enabled, in every run in which a transfer fails
    with an [RsyncError], nothing but the printing of its diagnostic
    output and the release of the lock follows the failed transfer: no
    transfer is started after it.  The transfers of the run are those up
    to the failed one, they are the first specs of the groups in the order
    of the loops, so the later specs of the group and the specs of the
    subsequent groups ([rest]) are not transferred; and [feed_sync]
    returns 1. *)
Theorem fail_fast_stops_the_run :
  forall (args : Args) (pre post : list event) (u d : string) (e : exn),
    parse_arguments = inr args ->
    fail_fast args = true ->
    snd run = pre ++ EvRsyncSync u d (Some e) :: post ->
    isinstance e "RsyncError" = true ->
    fst run = Return 1
    /\ (exists path,
          post = [EvPrintStderr (exn_stderr e); EvFlockRelease path])
    /\ transfers post = []
    /\ transfers (snd run) = transfers pre ++ [(u, d)]
    /\ exists rest,
         targets (sync_lists_of args) = transfers pre ++ (u, d) :: rest.
Proof.
  intros args pre post u d e Hargs Hff Hsplit Hinst.
  destruct (run_after_failure pre post u d e Hsplit)
    as [args' [Hargs' Hafter]].
  assert (args' = args) as -> by congruence.
  cbn [after_failure] in Hafter. rewrite Hinst in Hafter.
  destruct Hafter as [_ Hafter].
  destruct (Hafter Hff) as [Hret [t [-> [path ->]]]].
  assert (Hall : transfers (snd run) = transfers pre ++ [(u, d)]).
  { rewrite Hsplit, transfers_app. reflexivity. }
  repeat split.
  - exact Hret.
  - now exists path.
  - exact Hall.
  - destruct (feed_sync_shape_transfers _ _ _ _ args
                (feed_sync_run geteuid parse_arguments rsync_sync
                   flock_wait_enter) Hargs) as [rest Hrest].
    exists rest. rewrite Hrest, Hall, <- app_assoc. reflexivity.
Qed.

(** C9. In every run, under either policy, a transfer that fails with an
    [RsyncError] is followed at once by the printing of the diagnostic
    output of that error ([e.stderr]) to the error stream, before the run
    aborts or goes on. *)
Theorem transfer_error_is_printed :
  forall (pre post : list event) (u d : string) (e : exn),
    snd run = pre ++ EvRsyncSync u d (Some e) :: post ->
    isinstance e "RsyncError" = true ->
    exists post', post = EvPrintStderr (exn_stderr e) :: post'.
Proof.
  intros pre post u d e Hsplit Hinst.
  destruct (run_after_failure pre post u d e Hsplit)
    as [args [_ Hafter]].
  cbn [after_failure] in Hafter. rewrite Hinst in Hafter.
  exact (proj1 Hafter).
Qed.

(** C10. The [except] clause of the inner loop handles the instances of
    [RsyncError] and nothing else.  In every run, an exception of another
    type raised by a transfer leaves [feed_sync]: nothing is printed for
    it, no transfer follows, only the lock of the group is released, no
    lock is held afterwards, and [feed_sync] ends by raising that
    exception instead of returning a value.  An instance of [RsyncError]
    is handled: its diagnostic output is printed, and under fail-fast
    [feed_sync] returns 1. *)
Theorem other_exception_leaves_feed_sync :
  forall (pre post : list event) (u d : string) (e : exn),
    snd run = pre ++ EvRsyncSync u d (Some e) :: post ->
    (isinstance e "RsyncError" = false ->
       fst run = Raise e
       /\ (exists path, post = [EvFlockRelease path])
       /\ held_after (snd run) = [])
    /\ (isinstance e "RsyncError" = true ->
          (exists post', post = EvPrintStderr (exn_stderr e) :: post')
          /\ forall args,
               parse_arguments = inr args -> fail_fast args = true ->
               fst run = Return 1).
Proof.
  intros pre post u d e Hsplit.
  destruct (run_after_failure pre post u d e Hsplit)
    as [args [Hargs Hafter]].
  cbn [after_failure] in Hafter. split; intros Hinst; rewrite Hinst in Hafter.
  - destruct Hafter as [Hraise Hreleased]. repeat split; try assumption.
    apply (feed_sync_shape_hold geteuid parse_arguments (fst run)).
    apply feed_sync_run.
  - destruct Hafter as [Hprinted Hff]. split; [exact Hprinted |].
    intros args' Hargs' Htrue.
    assert (args' = args) as -> by congruence.
    exact (proj1 (Hff Htrue)).
Qed.

(** C2, as amended.  With fail-fast disabled, in every run that gets past
    the root check and the parsing of the arguments and in which the
    collaborators raise nothing but [RsyncError]s out of transfers (no
    lock acquisition fails, no transfer raises another exception), every
    spec of every group is transferred, in the order of the loops,
    whichever transfers failed; and [feed_sync] returns 1 if and only if
    at least one transfer failed, and 0 otherwise. *)
Theorem continue_on_error_runs_everything :
  forall (args : Args),
    geteuid <> 0 ->
    parse_arguments = inr args ->
    fail_fast args = false ->
    quiet (snd run) ->
    transfers (snd run) = targets (sync_lists_of args)
    /\ (fst run = Return 1 <->
        exists ev, In ev (snd run) /\ transfer_error ev = true)
    /\ ((forall ev, In ev (snd run) -> transfer_error ev = false) ->
        fst run = Return 0).
Proof.
  intros args Hroot Hargs Hnff Hquiet.
  pose proof (feed_sync_run geteuid parse_arguments rsync_sync
                flock_wait_enter) as Hshape.
  destruct (feed_sync_shape_args _ _ _ _ args Hshape Hargs)
    as [[Hzero _] | [_ [ext [c' [Htr [Hrun Hc]]]]]]; [contradiction |].
  rewrite Htr in Hquiet |- *. rewrite Hc.
  apply quiet_app in Hquiet. destruct Hquiet as [_ Hquiet].
  destruct (lists_run_quiet _ _ _ _ _ _ Hnff Hrun Hquiet) as [h' ->].
  destruct (lists_run_transfers _ _ _ _ _ _ Hrun) as [rest [Hrest Hnil]].
  rewrite (Hnil h' eq_refl), app_nil_r in Hrest.
  apply lists_run_errors in Hrun. cbn [tells_errors orb] in Hrun.
  assert (Hex : existsb transfer_error (prologue args ++ ext) = h').
  { now rewrite existsb_prologue. }
  rewrite transfers_prologue. cbn [ends_as]. repeat split.
  - now symmetry.
  - intros Hone. apply existsb_exists. rewrite Hex.
    destruct h'; [reflexivity | discriminate].
  - intros Hsome. apply existsb_exists in Hsome. rewrite Hex in Hsome.
    now rewrite Hsome.
  - intros Hnone. destruct h'; [| reflexivity].
    apply existsb_exists in Hex. destruct Hex as [ev [Hin Hev]].
    rewrite (Hnone ev Hin) in Hev. discriminate.
Qed.

(** C5. A group without syncs is skipped entirely: the loop over the
    groups does for a list with such a group exactly what it does for the
    list without it, so it enters no lock and starts no transfer for that
    group.  The lock operations of the loop are an initial segment of the
    entering and leaving of the locks of the other groups that have syncs,
    and its transfers an initial segment of the specs of the other
    groups. *)
Theorem empty_group_is_skipped :
  forall (args : Args) (rsync : Rsync) (wait : option Z)
         (before after : list SyncList) (g : SyncList)
         (h : bool) (tr : trace),
    syncs g = [] ->
    for_sync_lists rsync_sync flock_wait_enter args rsync wait
      (before ++ g :: after) h tr
    = for_sync_lists rsync_sync flock_wait_enter args rsync wait
        (before ++ after) h tr
    /\ exists ext c,
         for_sync_lists rsync_sync flock_wait_enter args rsync wait
           (before ++ g :: after) h tr = (c, tr ++ ext)
         /\ (exists rest,
               expected_lock_ops (before ++ after) = lock_ops ext ++ rest)
         /\ (exists rest,
               targets (before ++ after) = transfers ext ++ rest).
Proof.
  intros args rsync wait before after g h tr Hempty.
  assert (Hskip :
    forall h tr,
      for_sync_lists rsync_sync flock_wait_enter args rsync wait
        (before ++ g :: after) h tr
      = for_sync_lists rsync_sync flock_wait_enter args rsync wait
          (before ++ after) h tr).
  { clear h tr. induction before as [|g0 before IH]; intros h tr.
    - cbn [app for_sync_lists]. now rewrite Hempty.
    - cbn [app for_sync_lists]. destruct (syncs g0); [apply IH |].
      unfold bind. destruct (locked_syncs _ _ _ _ _ _ _ _) as [[h' | v | e] tr'];
        [apply IH | reflexivity | reflexivity]. }
  split; [apply Hskip |].
  destruct (for_sync_lists_run rsync_sync flock_wait_enter args rsync wait
              (before ++ after) h tr) as [ext [c [Heq Hrun]]].
  exists ext, c. split; [now rewrite Hskip | split].
  - exact (lists_run_lock_ops _ _ _ _ _ _ Hrun).
  - destruct (lists_run_transfers _ _ _ _ _ _ Hrun) as [rest [Hrest _]].
    now exists rest.
Qed.

(** The lock operations of a whole run: the locks of the groups that have
    syncs are entered and left in turn, as far as the run gets. *)
Lemma run_lock_ops (args : Args) :
  parse_arguments = inr args ->
  exists rest,
    expected_lock_ops (sync_lists_of args) = lock_ops (snd run) ++ rest.
Proof.
  intros Hargs.
  destruct (feed_sync_shape_args _ _ _ _ args
              (feed_sync_run geteuid parse_arguments rsync_sync
                 flock_wait_enter) Hargs)
    as [[_ [-> _]] | [_ [ext [c' [-> [Hrun _]]]]]].
  - now eexists.
  - rewrite lock_ops_prologue. exact (lists_run_lock_ops _ _ _ _ _ _ Hrun).
Qed.

(** C6. When the effective user is root, [feed_sync] raises the
    [GreenboneFeedSyncError] of lines 76-79 before anything else happens:
    the trace is left as it was, so the arguments are not parsed,
    [filter_syncs] is not called, no lock is entered and no transfer is
    started.  The error is not an [RsyncError]; [main] prints its message
    to the error stream and exits with status 1. *)
Theorem root_is_refused :
  geteuid = 0 ->
  (forall tr : trace,
      feed_sync geteuid parse_arguments rsync_sync flock_wait_enter tr
      = (Raise (GreenboneFeedSyncError root_message), tr))
  /\ isinstance (GreenboneFeedSyncError root_message) "RsyncError" = false
  /\ main geteuid parse_arguments rsync_sync flock_wait_enter
     = (Exit 1, [EvPrintStderr root_message]).
Proof.
  intros Hroot.
  assert (Hrun : forall tr : trace,
    feed_sync geteuid parse_arguments rsync_sync flock_wait_enter tr
    = (Raise (GreenboneFeedSyncError root_message), tr)).
  { intros tr. unfold feed_sync, is_root. now rewrite Hroot. }
  split; [exact Hrun | split; [reflexivity |]].
  unfold main. now rewrite Hrun.
Qed.

(** C7. [main] turns the way [feed_sync] ends into the exit status of the
    process.  When [feed_sync] returns, the status is the value returned,
    which is 1 when a transfer error was recorded (under fail-fast or not)
    and 0 otherwise.  When [feed_sync] raises a [GreenboneFeedSyncError],
    as it does for root, [main] prints the message of the error to the
    error stream and exits with 1.  When a [KeyboardInterrupt] comes out
    of the run, [main] exits with 1. *)
Theorem main_exit_status :
  (forall v : Z,
      fst run = Return v ->
      main geteuid parse_arguments rsync_sync flock_wait_enter
      = (Exit v, snd run)
      /\ v = if existsb transfer_error (snd run) then 1 else 0)
  /\ (forall e : exn,
        fst run = Raise e ->
        isinstance e "GreenboneFeedSyncError" = true ->
        main geteuid parse_arguments rsync_sync flock_wait_enter
        = (Exit 1, snd run ++ [EvPrintStderr (exn_str e)]))
  /\ (geteuid = 0 ->
      main geteuid parse_arguments rsync_sync flock_wait_enter
      = (Exit 1, [EvPrintStderr root_message]))
  /\ (forall e : exn,
        fst run = Raise e ->
        isinstance e "KeyboardInterrupt" = true ->
        fst (main geteuid parse_arguments rsync_sync flock_wait_enter)
        = Exit 1).
Proof.
  pose proof (feed_sync_run geteuid parse_arguments rsync_sync
                flock_wait_enter) as Hshape.
  unfold main.
  destruct (feed_sync geteuid parse_arguments rsync_sync flock_wait_enter [])
    as [c tr] eqn:Hrun. cbn [fst snd] in *.
  repeat split.
  - now subst c.
  - now apply (feed_sync_shape_errors _ _ _ _ Hshape).
  - intros e -> Hinst. now rewrite Hinst.
  - intros Hroot. unfold feed_sync, is_root in Hrun. rewrite Hroot in Hrun.
    cbn in Hrun. injection Hrun as <- <-. reflexivity.
  - intros e -> Hinst.
    destruct (isinstance e "GreenboneFeedSyncError"); [reflexivity |].
    now rewrite Hinst.
Qed.

(** C8.  Once the lock of a group has been acquired, it is released when
    the block of the [async with] statement is left, however the block is
    left: by the end of the loop over the syncs of the group (with or
    without a recorded error), by the [return 1] of fail-fast, or by an
    exception, an interruption included.  The release is the last event of
    the block, nothing between the acquisition and the release touches a
    lock, the lock is held until then, and the locks held after the block
    are those held before it. *)
Theorem lock_released_on_every_exit :
  forall (args : Args) (rsync : Rsync) (wait : option Z) (g : SyncList)
         (h : bool) (tr : trace),
    flock_wait_enter tr (lock_file g) (verbose args >=? 2) wait = None ->
    exists (body : list event) (c : completion bool),
      locked_syncs rsync_sync flock_wait_enter args rsync wait g h tr
      = (c,
         tr ++ EvFlockWait (lock_file g) (verbose args >=? 2) wait None
            :: body ++ [EvFlockRelease (lock_file g)])
      /\ ((exists h', c = Normal h') \/ c = Return 1
          \/ (exists e, c = Raise e))
      /\ lock_ops body = []
      /\ held_after
           (tr ++ EvFlockWait (lock_file g) (verbose args >=? 2) wait None
               :: body)
         = lock_file g :: held_after tr
      /\ held_after
           (tr ++ EvFlockWait (lock_file g) (verbose args >=? 2) wait None
               :: body ++ [EvFlockRelease (lock_file g)])
         = held_after tr.
Proof.
  intros args rsync wait g h tr Hacquired.
  unfold locked_syncs, async_with_flock_wait. rewrite Hacquired.
  destruct (for_syncs_run rsync_sync args rsync (syncs g) h
              (tr ++ [EvFlockWait (lock_file g) (verbose args >=? 2) wait None]))
    as [body [c [Heq Hrun]]].
  rewrite Heq. exists body, c.
  pose proof (syncs_run_lock_ops _ _ _ _ _ Hrun) as Hops.
  repeat split.
  - now rewrite <- !app_assoc.
  - apply syncs_run_errors in Hrun. destruct c as [h' | v | e].
    + left. now exists h'.
    + right. left. cbn in Hrun. now destruct Hrun as [-> _].
    + right. right. now exists e.
  - exact Hops.
  - unfold held_after. rewrite fold_left_app. cbn [fold_left hold].
    now rewrite (hold_no_lock_ops body Hops).
  - unfold held_after. rewrite fold_left_app.
    now rewrite (hold_block _ _ _ body [] _ Hops).
Qed.

(** No lock is held when [feed_sync] has ended, however it ended. *)
Lemma no_lock_held_after_run : held_after (snd run) = [].
Proof.
  apply (feed_sync_shape_hold geteuid parse_arguments (fst run)).
  apply feed_sync_run.
Qed.

End Properties.

(** ** Concrete runs *)

(** Arguments with every source and destination filled in; the policy, the
    feed type and the verbosity vary. *)
Definition example_args (ff : bool) (feed_type : string) (v : Z) : Args :=
  {| private_directory := None; verbose := v; compression_level := 9;
     type := feed_type;
     openvas_lock_file := "openvas.lock"; gvmd_lock_file := "gvmd.lock";
     notus_url := "u-notus"; notus_destination := "d-notus";
     nasl_url := "u-nasl"; nasl_destination := "d-nasl";
     scap_data_url := "u-scap"; scap_data_destination := "d-scap";
     cert_data_url := "u-cert"; cert_data_destination := "d-cert";
     report_formats_url := "u-report"; report_formats_destination := "d-report";
     scan_configs_url := "u-scan"; scan_configs_destination := "d-scan";
     port_lists_url := "u-port"; port_lists_destination := "d-port";
     no_wait := false; wait_interval := 5; fail_fast := ff |}.

(** An instance of [RsyncError] with the given diagnostic output. *)
Definition rsync_error (stderr : string) : exn :=
  {| exn_mro := ["RsyncError"; "GreenboneFeedSyncError"; "Exception";
                 "BaseException"; "object"];
     exn_str := "rsync failed";
     exn_stderr := stderr |}.

Definition keyboard_interrupt : exn :=
  {| exn_mro := ["KeyboardInterrupt"; "BaseException"; "object"];
     exn_str := "";
     exn_stderr := "" |}.

Definition permission_error : exn :=
  {| exn_mro := ["PermissionError"; "OSError"; "Exception"; "BaseException";
                 "object"];
     exn_str := "Permission denied";
     exn_stderr := "" |}.

(** Transfers that succeed except from one source. *)
Definition rsync_failing_on (u : string) (e : exn)
    : Rsync -> trace -> string -> string -> option exn :=
  fun _ _ url _ => if String.eqb url u then Some e else None.

(** Locks that are free except one, whose acquisition raises. *)
Definition flock_free : trace -> string -> bool -> option Z -> option exn :=
  fun _ _ _ _ => None.

Definition flock_failing_on (p : string) (e : exn)
    : trace -> string -> bool -> option Z -> option exn :=
  fun _ path _ _ => if String.eqb path p then Some e else None.

(** Scenario A of the spec: everything is selected and every transfer
    succeeds. *)
Example run_all_succeed :
  main 1000 (inr (example_args false "all" 0))
    (rsync_failing_on "nowhere" (rsync_error "")) flock_free
  = (Exit 0,
     [EvParseArguments;
      EvFilterSyncs "openvas.lock" "all"; EvFilterSyncs "gvmd.lock" "all";
      EvFlockWait "openvas.lock" false (Some 5) None;
      EvRsyncSync "u-notus" "d-notus" None;
      EvRsyncSync "u-nasl" "d-nasl" None;
      EvFlockRelease "openvas.lock";
      EvFlockWait "gvmd.lock" false (Some 5) None;
      EvRsyncSync "u-scap" "d-scap" None;
      EvRsyncSync "u-cert" "d-cert" None;
      EvRsyncSync "u-report" "d-report" None;
      EvRsyncSync "u-scan" "d-scan" None;
      EvRsyncSync "u-port" "d-port" None;
      EvFlockRelease "gvmd.lock"]).
Proof. reflexivity. Qed.

(** Scenario B of the spec: only specs of the second group are selected;
    the lock of the first group is not touched. *)
Example run_second_group_only :
  main 1000 (inr (example_args false "cert" 2))
    (rsync_failing_on "nowhere" (rsync_error "")) flock_free
  = (Exit 0,
     [EvParseArguments;
      EvFilterSyncs "openvas.lock" "cert"; EvFilterSyncs "gvmd.lock" "cert";
      EvFlockWait "gvmd.lock" true (Some 5) None;
      EvPrint "Downloading CERT-Bund data from u-cert to d-cert";
      EvRsyncSync "u-cert" "d-cert" None;
      EvFlockRelease "gvmd.lock"]).
Proof. reflexivity. Qed.

(** The five ways out of the lock scope of a group, each ending with the
    release of the lock. *)
Definition two_syncs : SyncList :=
  {| lock_file := "openvas.lock";
     syncs := [ {| name := "X"; types := ["all"]; url := "u-x";
                   destination := "d-x" |};
                {| name := "Y"; types := ["all"]; url := "u-y";
                   destination := "d-y" |} ] |}.

Definition plain_rsync : Rsync :=
  {| rsync_private_subdir := None; rsync_verbose := false;
     rsync_compression_level := 9 |}.

Example exit_by_completion :
  locked_syncs (rsync_failing_on "nowhere" (rsync_error "")) flock_free
    (example_args false "all" 0) plain_rsync (Some 5) two_syncs false []
  = (Normal false,
     [EvFlockWait "openvas.lock" false (Some 5) None;
      EvRsyncSync "u-x" "d-x" None; EvRsyncSync "u-y" "d-y" None;
      EvFlockRelease "openvas.lock"]).
Proof. reflexivity. Qed.

Example exit_with_recorded_error :
  locked_syncs (rsync_failing_on "u-x" (rsync_error "boom")) flock_free
    (example_args false "all" 0) plain_rsync (Some 5) two_syncs false []
  = (Normal true,
     [EvFlockWait "openvas.lock" false (Some 5) None;
      EvRsyncSync "u-x" "d-x" (Some (rsync_error "boom"));
      EvPrintStderr "boom";
      EvRsyncSync "u-y" "d-y" None;
      EvFlockRelease "openvas.lock"]).
Proof. reflexivity. Qed.

Example exit_by_fail_fast :
  locked_syncs (rsync_failing_on "u-x" (rsync_error "boom")) flock_free
    (example_args true "all" 0) plain_rsync (Some 5) two_syncs false []
  = (Return 1,
     [EvFlockWait "openvas.lock" false (Some 5) None;
      EvRsyncSync "u-x" "d-x" (Some (rsync_error "boom"));
      EvPrintStderr "boom";
      EvFlockRelease "openvas.lock"]).
Proof. reflexivity. Qed.

Example exit_by_exception :
  locked_syncs (rsync_failing_on "u-x" permission_error) flock_free
    (example_args false "all" 0) plain_rsync (Some 5) two_syncs false []
  = (Raise permission_error,
     [EvFlockWait "openvas.lock" false (Some 5) None;
      EvRsyncSync "u-x" "d-x" (Some permission_error);
      EvFlockRelease "openvas.lock"]).
Proof. reflexivity. Qed.

Example exit_by_interruption :
  locked_syncs (rsync_failing_on "u-y" keyboard_interrupt) flock_free
    (example_args false "all" 0) plain_rsync (Some 5) two_syncs false []
  = (Raise keyboard_interrupt,
     [EvFlockWait "openvas.lock" false (Some 5) None;
      EvRsyncSync "u-x" "d-x" None;
      EvRsyncSync "u-y" "d-y" (Some keyboard_interrupt);
      EvFlockRelease "openvas.lock"]).
Proof. reflexivity. Qed.

(** *** Fail-fast (scenario D of the spec)

    Everything is selected, the second transfer fails, fail-fast is on. *)
Definition stop_args : Args := example_args true "all" 0.
Definition nasl_fails : Rsync -> trace -> string -> string -> option exn :=
  rsync_failing_on "u-nasl" (rsync_error "boom").

Definition stop_pre : list event :=
  [EvParseArguments;
   EvFilterSyncs "openvas.lock" "all"; EvFilterSyncs "gvmd.lock" "all";
   EvFlockWait "openvas.lock" false (Some 5) None;
   EvRsyncSync "u-notus" "d-notus" None].

Definition stop_post : list event :=
  [EvPrintStderr "boom"; EvFlockRelease "openvas.lock"].

Lemma fail_fast_stops_the_run_witness :
  (fail_fast stop_args = true
   /\ snd (feed_sync 1000 (inr stop_args) nasl_fails flock_free [])
      = stop_pre
          ++ EvRsyncSync "u-nasl" "d-nasl" (Some (rsync_error "boom"))
          :: stop_post
   /\ isinstance (rsync_error "boom") "RsyncError" = true)
  /\ fst (feed_sync 1000 (inr stop_args) nasl_fails flock_free [])
     = Return 1
  /\ (exists path,
        stop_post
        = [EvPrintStderr (exn_stderr (rsync_error "boom"));
           EvFlockRelease path])
  /\ transfers stop_post = []
  /\ transfers (snd (feed_sync 1000 (inr stop_args) nasl_fails flock_free []))
     = transfers stop_pre ++ [("u-nasl", "d-nasl")]
  /\ exists rest,
       targets (sync_lists_of stop_args)
       = transfers stop_pre ++ ("u-nasl", "d-nasl") :: rest.
Proof.
  split; [repeat split; reflexivity |].
  apply (fail_fast_stops_the_run 1000 (inr stop_args) nasl_fails flock_free
           stop_args stop_pre stop_post "u-nasl" "d-nasl"
           (rsync_error "boom"));
    reflexivity.
Defined.

(** *** Continue on error (scenario C of the spec)

    Everything is selected, the first transfer of the second group fails,
    fail-fast is off. *)
Definition go_args : Args := example_args false "all" 0.
Definition scap_fails : Rsync -> trace -> string -> string -> option exn :=
  rsync_failing_on "u-scap" (rsync_error "boom").

Lemma go_run_quiet :
  quiet (snd (feed_sync 1000 (inr go_args) scap_fails flock_free [])).
Proof.
  intros ev Hin. vm_compute in Hin.
  repeat (destruct Hin as [<- | Hin]; [reflexivity |]). contradiction.
Defined.

Lemma continue_on_error_runs_everything_witness :
  (1000 <> 0
   /\ fail_fast go_args = false
   /\ quiet (snd (feed_sync 1000 (inr go_args) scap_fails flock_free [])))
  /\ transfers (snd (feed_sync 1000 (inr go_args) scap_fails flock_free []))
     = targets (sync_lists_of go_args)
  /\ (fst (feed_sync 1000 (inr go_args) scap_fails flock_free []) = Return 1
      <-> exists ev,
            In ev (snd (feed_sync 1000 (inr go_args) scap_fails flock_free []))
            /\ transfer_error ev = true)
  /\ ((forall ev,
          In ev (snd (feed_sync 1000 (inr go_args) scap_fails flock_free [])) ->
          transfer_error ev = false) ->
      fst (feed_sync 1000 (inr go_args) scap_fails flock_free []) = Return 0).
Proof.
  split; [repeat split; [discriminate | exact go_run_quiet] |].
  apply (continue_on_error_runs_everything 1000 (inr go_args) scap_fails
           flock_free go_args);
    [discriminate | reflexivity | reflexivity | exact go_run_quiet].
Defined.

(** With fail-fast off and every transfer succeeding, the lock of the second
    group cannot be acquired: no transfer has failed, yet [feed_sync] does
    not return 0 (it raises), and the specs of the second group are not
    transferred. *)
Definition gvmd_lock_denied
    : trace -> string -> bool -> option Z -> option exn :=
  flock_failing_on "gvmd.lock" permission_error.
Definition no_failure : Rsync -> trace -> string -> string -> option exn :=
  rsync_failing_on "nowhere" (rsync_error "").

Lemma continue_on_error_counterexample :
  fail_fast go_args = false
  /\ existsb transfer_error
       (snd (feed_sync 1000 (inr go_args) no_failure gvmd_lock_denied []))
     = false
  /\ fst (feed_sync 1000 (inr go_args) no_failure gvmd_lock_denied [])
     <> Return 0
  /\ fst (feed_sync 1000 (inr go_args) no_failure gvmd_lock_denied [])
     = Raise permission_error
  /\ transfers
       (snd (feed_sync 1000 (inr go_args) no_failure gvmd_lock_denied []))
     = [("u-notus", "d-notus"); ("u-nasl", "d-nasl")]
  /\ length (targets (sync_lists_of go_args)) = 7%nat.
Proof.
  repeat split; try reflexivity. intros H. vm_compute in H. discriminate.
Qed.

(** *** A transfer error is printed under either policy *)

Lemma transfer_error_is_printed_witness :
  (snd (feed_sync 1000 (inr stop_args) nasl_fails flock_free [])
   = stop_pre
       ++ EvRsyncSync "u-nasl" "d-nasl" (Some (rsync_error "boom"))
       :: stop_post
   /\ exists post', stop_post = EvPrintStderr "boom" :: post')
  /\ (fail_fast go_args = false
      /\ exists post',
           skipn 6 (snd (feed_sync 1000 (inr go_args) nasl_fails flock_free []))
           = EvPrintStderr "boom" :: post').
Proof.
  split; (split; [reflexivity |]).
  - apply (transfer_error_is_printed 1000 (inr stop_args) nasl_fails
             flock_free stop_pre stop_post "u-nasl" "d-nasl"
             (rsync_error "boom")); reflexivity.
  - apply (transfer_error_is_printed 1000 (inr go_args) nasl_fails
             flock_free stop_pre _ "u-nasl" "d-nasl" (rsync_error "boom"));
      reflexivity.
Defined.

(** *** Another exception out of a transfer *)

Definition nasl_denied : Rsync -> trace -> string -> string -> option exn :=
  rsync_failing_on "u-nasl" permission_error.

Lemma other_exception_leaves_feed_sync_witness :
  (snd (feed_sync 1000 (inr go_args) nasl_denied flock_free [])
   = stop_pre ++ EvRsyncSync "u-nasl" "d-nasl" (Some permission_error)
       :: [EvFlockRelease "openvas.lock"]
   /\ isinstance permission_error "RsyncError" = false)
  /\ fst (feed_sync 1000 (inr go_args) nasl_denied flock_free [])
     = Raise permission_error
  /\ (exists path,
        [EvFlockRelease "openvas.lock"] = [EvFlockRelease path])
  /\ held_after (snd (feed_sync 1000 (inr go_args) nasl_denied flock_free []))
     = [].
Proof.
  split; [split; reflexivity |].
  apply (other_exception_leaves_feed_sync 1000 (inr go_args) nasl_denied
           flock_free stop_pre [EvFlockRelease "openvas.lock"]
           "u-nasl" "d-nasl" permission_error);
    reflexivity.
Defined.

(** *** A group without syncs *)

Definition no_syncs : SyncList := {| lock_file := "gvmd.lock"; syncs := [] |}.

Lemma empty_group_is_skipped_witness :
  syncs no_syncs = []
  /\ for_sync_lists no_failure flock_free go_args plain_rsync (Some 5)
       ([two_syncs] ++ no_syncs :: [two_syncs]) false []
     = for_sync_lists no_failure flock_free go_args plain_rsync (Some 5)
         ([two_syncs] ++ [two_syncs]) false []
  /\ exists ext c,
       for_sync_lists no_failure flock_free go_args plain_rsync (Some 5)
         ([two_syncs] ++ no_syncs :: [two_syncs]) false []
       = (c, [] ++ ext)
       /\ (exists rest,
             expected_lock_ops ([two_syncs] ++ [two_syncs])
             = lock_ops ext ++ rest)
       /\ (exists rest,
             targets ([two_syncs] ++ [two_syncs]) = transfers ext ++ rest).
Proof.
  split; [reflexivity |].
  apply (empty_group_is_skipped no_failure flock_free go_args plain_rsync
           (Some 5) [two_syncs] [two_syncs] no_syncs false []).
  reflexivity.
Defined.

(** *** Root *)

Lemma root_is_refused_witness :
  (forall tr : trace,
      feed_sync 0 (inr go_args) no_failure flock_free tr
      = (Raise (GreenboneFeedSyncError root_message), tr))
  /\ isinstance (GreenboneFeedSyncError root_message) "RsyncError" = false
  /\ main 0 (inr go_args) no_failure flock_free
     = (Exit 1, [EvPrintStderr root_message]).
Proof.
  apply (root_is_refused 0 (inr go_args) no_failure flock_free). reflexivity.
Defined.

(** *** Exit status *)

Lemma main_exit_status_witness :
  (main 1000 (inr go_args) scap_fails flock_free
   = (Exit 1, snd (feed_sync 1000 (inr go_args) scap_fails flock_free []))
   /\ 1 = if existsb transfer_error
               (snd (feed_sync 1000 (inr go_args) scap_fails flock_free []))
          then 1 else 0)
  /\ fst (main 1000 (inr go_args)
            (rsync_failing_on "u-cert" keyboard_interrupt) flock_free)
     = Exit 1.
Proof.
  split.
  - apply (proj1 (main_exit_status 1000 (inr go_args) scap_fails flock_free) 1).
    reflexivity.
  - apply (proj2 (proj2 (proj2
             (main_exit_status 1000 (inr go_args)
                (rsync_failing_on "u-cert" keyboard_interrupt) flock_free)))
             keyboard_interrupt);
      reflexivity.
Defined.

(** *** Release of the lock *)

Lemma lock_released_on_every_exit_witness :
  flock_free [] (lock_file two_syncs) (verbose stop_args >=? 2) (Some 5) = None
  /\ exists (body : list event) (c : completion bool),
       locked_syncs (rsync_failing_on "u-x" (rsync_error "boom")) flock_free
         stop_args plain_rsync (Some 5) two_syncs false []
       = (c,
          [] ++ EvFlockWait (lock_file two_syncs) (verbose stop_args >=? 2)
                  (Some 5) None
             :: body ++ [EvFlockRelease (lock_file two_syncs)])
       /\ ((exists h', c = Normal h') \/ c = Return 1
           \/ (exists e, c = Raise e))
       /\ lock_ops body = []
       /\ held_after
            ([] ++ EvFlockWait (lock_file two_syncs)
                     (verbose stop_args >=? 2) (Some 5) None
                :: body)
          = lock_file two_syncs :: held_after []
       /\ held_after
            ([] ++ EvFlockWait (lock_file two_syncs)
                     (verbose stop_args >=? 2) (Some 5) None
                :: body ++ [EvFlockRelease (lock_file two_syncs)])
          = held_after [].
Proof.
  split; [reflexivity |].
  apply (lock_released_on_every_exit
           (rsync_failing_on "u-x" (rsync_error "boom")) flock_free
           stop_args plain_rsync (Some 5) two_syncs false []).
  reflexivity.
Defined.


(** * Further properties of the orchestrator

    Properties of [feed_sync] and [main] beyond the ones above, proved on
    the same definitions. *)

(** ** More readings of a trace *)

(** What a collaborator raised at an event, if the event is a call of one. *)
Definition raised_at (ev : event) : option exn :=
  match ev with
  | EvRsyncSync _ _ r => r
  | EvFlockWait _ _ _ r => r
  | _ => None
  end.

(** The lines printed to the standard output, in order. *)
Definition stdout_lines (tr : list event) : list string :=
  flat_map (fun ev => match ev with EvPrint t => [t] | _ => [] end) tr.

(** The lines printed to the error stream, in order. *)
Definition stderr_lines (tr : list event) : list string :=
  flat_map (fun ev => match ev with EvPrintStderr t => [t] | _ => [] end) tr.

(** The diagnostic outputs of the transfers that raised an [RsyncError], in
    order. *)
Definition diagnostics (tr : list event) : list string :=
  flat_map
    (fun ev =>
       match ev with
       | EvRsyncSync _ _ (Some e) =>
           if isinstance e "RsyncError" then [exn_stderr e] else []
       | _ => []
       end) tr.

(** The event is no lock operation. *)
Definition no_lock_op (ev : event) : Prop := lock_ops [ev] = [].

(** ** Splitting traces *)

Lemma app_eq_split {A : Type} (a b pre post : list A) :
  a ++ b = pre ++ post ->
  (exists m, a = pre ++ m /\ post = m ++ b)
  \/ (exists x m, pre = a ++ x :: m /\ b = x :: m ++ post).
Proof.
  intros H. apply app_eq_app in H. destruct H as [l [[H1 H2] | [H1 H2]]].
  - left. now exists l.
  - destruct l as [|x m].
    + left. exists []. rewrite app_nil_r in H1. cbn in H2. subst.
      now rewrite app_nil_r.
    + right. now exists x, m.
Qed.

Lemma lock_ops_nil_app (a b : list event) :
  lock_ops (a ++ b) = [] -> lock_ops a = [] /\ lock_ops b = [].
Proof. rewrite lock_ops_app. apply app_eq_nil. Qed.

Lemma lock_ops_nil_In (a : list event) (ev : event) :
  lock_ops a = [] -> In ev a -> no_lock_op ev.
Proof.
  intros Hops Hin. apply in_split in Hin. destruct Hin as [l1 [l2 ->]].
  apply lock_ops_nil_app in Hops. destruct Hops as [_ Hops].
  change (ev :: l2) with ([ev] ++ l2) in Hops.
  now apply lock_ops_nil_app in Hops.
Qed.

Lemma transfers_In (tr : list event) u d r :
  In (EvRsyncSync u d r) tr -> In (u, d) (transfers tr).
Proof.
  intros Hin. apply in_split in Hin. destruct Hin as [l1 [l2 ->]].
  rewrite transfers_app. apply in_or_app. right. now left.
Qed.

(** ** Where a run stands after each of its events *)

(** Inside the inner loop no lock operation happens, and a transfer that is
    about to start is the transfer of one of the syncs of the loop. *)
Lemma syncs_run_prefix (args : Args) l h ext c :
  syncs_run args l h ext c ->
  forall pre post, ext = pre ++ post ->
    lock_ops pre = []
    /\ forall u d r post',
         post = EvRsyncSync u d r :: post' -> In (u, d) (map target l).
Proof.
  intros Hrun pre post ->.
  pose proof (syncs_run_lock_ops _ _ _ _ _ Hrun) as Hops.
  apply lock_ops_nil_app in Hops. split; [exact (proj1 Hops) |].
  intros u d r post' ->.
  destruct (syncs_run_transfers _ _ _ _ _ Hrun) as [rest [Hrest _]].
  rewrite Hrest. apply in_or_app. left.
  apply transfers_In with (r := r). apply in_or_app. right. now left.
Qed.

(** The state of the locks before an event of the loop over the groups:
    either nothing is held beyond what was held at the start, and the next
    event is no transfer, or the lock of one group that has syncs is held
    in addition, and a transfer that is about to start belongs to that
    group. *)
Definition stands (gs : list SyncList) (pre post : list event) : Prop :=
  ((forall held, fold_left hold pre held = held)
   /\ forall u d r post', post <> EvRsyncSync u d r :: post')
  \/ (exists g,
        In g gs /\ syncs g <> []
        /\ (forall held, fold_left hold pre held = lock_file g :: held)
        /\ forall u d r post',
             post = EvRsyncSync u d r :: post' ->
             In (u, d) (map target (syncs g))).

Lemma stands_more (g : SyncList) (gs : list SyncList) pre post :
  stands gs pre post -> stands (g :: gs) pre post.
Proof.
  intros [H | [g' [Hin H]]]; [now left | right].
  exists g'. split; [now right | exact H].
Qed.

(** The lock scope of one group, followed by [rest]. *)
Lemma block_stands (args : Args) (wait : option Z) (g : SyncList)
    (gs : list SyncList) h ext1 c1 (rest : list event) :
  syncs g <> [] ->
  syncs_run args (syncs g) h ext1 c1 ->
  (forall pre post, rest = pre ++ post -> stands gs pre post) ->
  forall pre post,
    EvFlockWait (lock_file g) (verbose args >=? 2) wait None
      :: ext1 ++ EvFlockRelease (lock_file g) :: rest
    = pre ++ post ->
    stands (g :: gs) pre post.
Proof.
  intros Hne Hrun Hrest pre post Heq.
  destruct pre as [|p pre].
  - left. split; [reflexivity |]. intros u d r post' ->. discriminate.
  - cbn [app] in Heq. injection Heq as <- Heq.
    apply app_eq_split in Heq.
    destruct Heq as [[m [Hext1 Hpost]] | [x [m [Hpre Hrel]]]].
    + right. exists g. split; [now left | split; [exact Hne |]].
      destruct (syncs_run_prefix _ _ _ _ _ Hrun pre m Hext1) as [Hops Hnext].
      split.
      * intros held. cbn [fold_left hold]. now apply hold_no_lock_ops.
      * intros u d r post' Hp. rewrite Hp in Hpost.
        destruct m as [|y m]; [discriminate |].
        cbn [app] in Hpost. injection Hpost as <- _.
        now apply (Hnext u d r m).
    + injection Hrel as <- Hrest'. subst pre.
      apply stands_more.
      assert (Hfold : forall held,
        fold_left hold
          (EvFlockWait (lock_file g) (verbose args >=? 2) wait None
             :: ext1 ++ EvFlockRelease (lock_file g) :: m) held
        = fold_left hold m held).
      { intros held. apply hold_block.
        exact (syncs_run_lock_ops _ _ _ _ _ Hrun). }
      destruct (Hrest m post Hrest') as [[Hheld Hnext] | [g' [Hin [Hne' [Hheld Hnext]]]]].
      * left. split; [| exact Hnext].
        intros held. now rewrite Hfold.
      * right. exists g'. repeat split; try assumption.
        intros held. now rewrite Hfold.
Qed.

Lemma nil_stands (gs : list SyncList) :
  forall pre post : list event, [] = pre ++ post -> stands gs pre post.
Proof.
  intros pre post Heq. symmetry in Heq. apply app_eq_nil in Heq.
  destruct Heq as [-> ->]. left. split; [reflexivity | discriminate].
Qed.

Lemma lists_run_stands (args : Args) wait gs h ext c :
  lists_run args wait gs h ext c ->
  forall pre post, ext = pre ++ post -> stands gs pre post.
Proof.
  induction 1 as [h | g gs h ext c Hempty Hrun IH | g gs h e Hne
                  | g gs h h' ext1 ext2 c Hne H1 Hrun IH
                  | g gs h ext1 v Hne H1 | g gs h ext1 e Hne H1];
    intros pre post Heq.
  - now apply nil_stands.
  - apply stands_more. now apply IH.
  - left. destruct pre as [|p pre].
    + split; [reflexivity |]. cbn in Heq. subst post. discriminate.
    + injection Heq as <- Heq. symmetry in Heq. apply app_eq_nil in Heq.
      destruct Heq as [-> ->]. split; [reflexivity | discriminate].
  - now apply (block_stands args wait g gs h ext1 (Normal h') ext2 Hne H1 IH).
  - now apply (block_stands args wait g gs h ext1 (Return v) [] Hne H1
                 (nil_stands gs)).
  - now apply (block_stands args wait g gs h ext1 (Raise e) [] Hne H1
                 (nil_stands gs)).
Qed.

Lemma held_after_prologue (args : Args) (l : list event) :
  held_after (prologue args ++ l) = fold_left hold l [].
Proof. reflexivity. Qed.

(** The same for a whole run of [feed_sync]. *)
Lemma feed_sync_shape_stands geteuid parse_arguments c tr :
  feed_sync_shape geteuid parse_arguments c tr ->
  forall pre post, tr = pre ++ post ->
    (held_after pre = []
     /\ forall u d r post', post <> EvRsyncSync u d r :: post')
    \/ (exists args g,
          parse_arguments = inr args
          /\ In g (sync_lists_of args) /\ syncs g <> []
          /\ held_after pre = [lock_file g]
          /\ forall u d r post',
               post = EvRsyncSync u d r :: post' ->
               In (u, d) (map target (syncs g))).
Proof.
  assert (Hlists : forall args ext c',
    parse_arguments = inr args ->
    lists_run args (wait_of args) (sync_lists_of args) false ext c' ->
    forall pre post, prologue args ++ ext = pre ++ post ->
      (held_after pre = []
       /\ forall u d r post', post <> EvRsyncSync u d r :: post')
      \/ (exists args g,
            parse_arguments = inr args
            /\ In g (sync_lists_of args) /\ syncs g <> []
            /\ held_after pre = [lock_file g]
            /\ forall u d r post',
                 post = EvRsyncSync u d r :: post' ->
                 In (u, d) (map target (syncs g)))).
  { intros args ext c' Hargs Hrun pre post Heq. symmetry in Heq.
    apply app_eq_split in Heq.
    destruct Heq as [[m [Hpre Hext]] | [x [m [Hpro Hpost]]]].
    - subst pre. rewrite held_after_prologue.
      destruct (lists_run_stands _ _ _ _ _ _ Hrun m post Hext)
        as [[Hheld Hnext] | [g [Hin [Hne [Hheld Hnext]]]]].
      + left. split; [apply Hheld | exact Hnext].
      + right. exists args, g. repeat split; try assumption. apply Hheld.
    - left. split.
      + assert (Hops : lock_ops (pre ++ x :: m) = []) by now rewrite <- Hpro.
        apply lock_ops_nil_app in Hops. unfold held_after.
        now apply hold_no_lock_ops.
      + intros u d r post' Hp. rewrite Hp in Hpost.
        cbn [app] in Hpost. injection Hpost as <- _.
        assert (Ht : transfers (prologue args) = []) by reflexivity.
        rewrite Hpro in Ht. now apply transfers_split_nonempty in Ht. }
  intros [Hroot | e Hroot Hparse | args0 h ext Hroot Hparse Hrun
          | args0 v ext Hroot Hparse Hrun | args0 e ext Hroot Hparse Hrun]
    pre post Heq.
  - symmetry in Heq. apply app_eq_nil in Heq. destruct Heq as [-> ->].
    left. split; [reflexivity | discriminate].
  - left. destruct pre as [|p pre].
    + split; [reflexivity |]. cbn in Heq. subst post. discriminate.
    + injection Heq as <- Heq. symmetry in Heq. apply app_eq_nil in Heq.
      destruct Heq as [-> ->]. split; [reflexivity | discriminate].
  - now apply (Hlists args0 ext (Normal h)).
  - now apply (Hlists args0 ext (Return v)).
  - now apply (Hlists args0 ext (Raise e)).
Qed.

Section Further.

Variable geteuid : Z.
Variable parse_arguments : exn + Args.
Variable rsync_sync : Rsync -> trace -> string -> string -> option exn.
Variable flock_wait_enter :
  trace -> string -> bool -> option Z -> option exn.

Local Notation "'run'" :=
  (feed_sync geteuid parse_arguments rsync_sync flock_wait_enter []).

(** X1. Mutual exclusion of the destination trees: in every run, whenever
    a transfer is started, exactly one lock is held, and it is the lock of
    a group of the run to which the transferred spec belongs.  This holds
    whether the transfer then succeeds or raises. *)
Theorem transfer_runs_under_group_lock :
  forall (pre post : list event) (u d : string) (r : option exn),
    snd run = pre ++ EvRsyncSync u d r :: post ->
    exists (args : Args) (g : SyncList),
      parse_arguments = inr args
      /\ In g (sync_lists_of args)
      /\ In (u, d) (map target (syncs g))
      /\ held_after pre = [lock_file g].
Proof.
  intros pre post u d r Hsplit.
  destruct (feed_sync_shape_stands _ _ _ _
              (feed_sync_run geteuid parse_arguments rsync_sync
                 flock_wait_enter) pre _ Hsplit)
    as [[_ Hnext] | [args [g [Hargs [Hin [_ [Hheld Hnext]]]]]]].
  - now destruct (Hnext u d r post).
  - exists args, g. repeat split; try assumption.
    now apply (Hnext u d r post).
Qed.

(** X2. At no point of a run is more than one lock held: the lock of a
    group is released before the lock of the next group is entered. *)
Theorem at_most_one_lock_held :
  forall (pre post : list event),
    snd run = pre ++ post ->
    (length (held_after pre) <= 1)%nat.
Proof.
  intros pre post Hsplit.
  destruct (feed_sync_shape_stands _ _ _ _
              (feed_sync_run geteuid parse_arguments rsync_sync
                 flock_wait_enter) pre _ Hsplit)
    as [[Hheld _] | [args [g [_ [_ [_ [Hheld _]]]]]]];
    rewrite Hheld; cbn; lia.
Qed.

(** *** A lock that cannot be acquired *)

(** What follows a failed acquisition: nothing, and the block ends by
    raising what the acquisition raised. *)
Definition after_lock_failure {A : Type} (c : completion A)
    (ev : event) (post : list event) : Prop :=
  match ev with
  | EvFlockWait _ _ _ (Some e) => c = Raise e /\ post = []
  | _ => True
  end.

Lemma each_suffix_no_lock_op (Q : event -> list event -> Prop)
    (a : list event) :
  lock_ops a = [] ->
  (forall ev post, no_lock_op ev -> Q ev post) ->
  each_suffix Q a.
Proof.
  intros Hops HQ. induction a as [|x a IH]; [exact I |].
  change (x :: a) with ([x] ++ a) in Hops.
  apply lock_ops_nil_app in Hops. destruct Hops as [Hx Ha].
  cbn [each_suffix]. split; [now apply HQ | now apply IH].
Qed.

Lemma after_lock_failure_no_lock_op {A : Type} (c : completion A)
    (ev : event) (post : list event) :
  no_lock_op ev -> after_lock_failure c ev post.
Proof. destruct ev; cbn; try tauto. discriminate. Qed.

Lemma lists_run_after_lock_failure (args : Args) wait gs h ext c :
  lists_run args wait gs h ext c ->
  each_suffix (after_lock_failure c) ext.
Proof.
  induction 1 as [h | g gs h ext c Hempty Hrun IH | g gs h e Hne
                  | g gs h h' ext1 ext2 c Hne H1 Hrun IH
                  | g gs h ext1 v Hne H1 | g gs h ext1 e Hne H1];
    try (apply syncs_run_lock_ops in H1);
    cbn [each_suffix after_lock_failure]; try (split; [exact I |]).
  - exact I.
  - exact IH.
  - now repeat split.
  - apply each_suffix_app with (Q1 := fun ev _ => no_lock_op ev).
    + now apply each_suffix_no_lock_op.
    + intros ev post. apply after_lock_failure_no_lock_op.
    + cbn [each_suffix after_lock_failure]. split; [exact I | exact IH].
  - apply each_suffix_app with (Q1 := fun ev _ => no_lock_op ev).
    + now apply each_suffix_no_lock_op.
    + intros ev post. apply after_lock_failure_no_lock_op.
    + cbn. split; exact I.
  - apply each_suffix_app with (Q1 := fun ev _ => no_lock_op ev).
    + now apply each_suffix_no_lock_op.
    + intros ev post. apply after_lock_failure_no_lock_op.
    + cbn. split; exact I.
Qed.

Lemma feed_sync_shape_after_lock_failure geteuid' parse_arguments' c tr :
  feed_sync_shape geteuid' parse_arguments' c tr ->
  each_suffix (after_lock_failure c) tr.
Proof.
  intros [Hroot | e Hroot Hparse | args0 h ext Hroot Hparse Hrun
          | args0 v ext Hroot Hparse Hrun | args0 e ext Hroot Hparse Hrun];
    try (cbn; tauto);
    cbn [prologue app each_suffix after_lock_failure];
    repeat (split; [exact I |]);
    apply lists_run_after_lock_failure in Hrun;
    apply each_suffix_impl with (1 := Hrun);
    intros ev post; destruct ev as [| |p v' w [e'|]| | | |]; cbn; try tauto;
    intros [Hc Hp]; (discriminate || (split; congruence)).
Qed.

(** X3. When entering the lock of a group raises, [feed_sync] ends at once
    by raising the same exception: nothing follows the failed acquisition,
    so the syncs of that group and of the later groups are not transferred,
    a transfer error recorded before is not reported as a return value, and
    no lock is held. *)
Theorem lock_failure_aborts_the_run :
  forall (pre post : list event) (path : string) (v : bool)
         (w : option Z) (e : exn),
    snd run = pre ++ EvFlockWait path v w (Some e) :: post ->
    fst run = Raise e
    /\ post = []
    /\ transfers (snd run) = transfers pre
    /\ held_after (snd run) = [].
Proof.
  intros pre post path v w e Hsplit.
  pose proof (feed_sync_run geteuid parse_arguments rsync_sync
                flock_wait_enter) as Hshape.
  pose proof (each_suffix_split _ _
                (feed_sync_shape_after_lock_failure _ _ _ _ Hshape)
                pre _ post Hsplit) as [Hraise ->].
  repeat split.
  - exact Hraise.
  - rewrite Hsplit, transfers_app. cbn. apply app_nil_r.
  - now apply (feed_sync_shape_hold geteuid parse_arguments (fst run)).
Qed.

(** *** Which syncs a run has dealt with *)

Lemma stdout_lines_app (a b : list event) :
  stdout_lines (a ++ b) = stdout_lines a ++ stdout_lines b.
Proof. apply flat_map_app. Qed.

Lemma stdout_lines_announce (args : Args) (s : Sync) :
  stdout_lines (announce args s)
  = if verbose args >=? 1 then [downloading s] else [].
Proof. unfold announce. now destruct (verbose args >=? 1). Qed.

(** What a run of the inner loop has done: it has started the transfers of
    the first syncs of its list, [done], one after the other, and has
    announced each of them on the standard output when the verbosity is at
    least 1; when it reaches its end, no sync is left. *)
Definition has_done (args : Args) (l done rest : list Sync)
    (ext : list event) {A : Type} (c : completion A) : Prop :=
  l = done ++ rest
  /\ transfers ext = map target done
  /\ stdout_lines ext
     = (if verbose args >=? 1 then map downloading done else [])
  /\ forall h', c = Normal h' -> rest = [].

Lemma syncs_run_done (args : Args) l h ext c :
  syncs_run args l h ext c ->
  exists done rest, has_done args l done rest ext c.
Proof.
  unfold has_done.
  induction 1 as [h | s l h ext c Hrun [done [rest [IH1 [IH2 [IH3 IH4]]]]]
                  | s l h e Hinst Hff
                  | s l h e ext c Hinst Hff Hrun
                      [done [rest [IH1 [IH2 [IH3 IH4]]]]]
                  | s l h e Hinst];
    rewrite ?transfers_app, ?transfers_announce,
      ?stdout_lines_app, ?stdout_lines_announce.
  - exists [], []. destruct (verbose args >=? 1); now repeat split.
  - exists (s :: done), rest. subst l.
    change (transfers (EvRsyncSync (url s) (destination s) None :: ext))
      with (target s :: transfers ext).
    change (stdout_lines (EvRsyncSync (url s) (destination s) None :: ext))
      with (stdout_lines ext).
    rewrite IH2, IH3.
    destruct (verbose args >=? 1); now repeat split.
  - exists [s], l. destruct (verbose args >=? 1); repeat split; discriminate.
  - exists (s :: done), rest. subst l.
    change (transfers (EvRsyncSync (url s) (destination s) (Some e)
                         :: EvPrintStderr (exn_stderr e) :: ext))
      with (target s :: transfers ext).
    change (stdout_lines (EvRsyncSync (url s) (destination s) (Some e)
                            :: EvPrintStderr (exn_stderr e) :: ext))
      with (stdout_lines ext).
    rewrite IH2, IH3.
    destruct (verbose args >=? 1); now repeat split.
  - exists [s], l. destruct (verbose args >=? 1); repeat split; discriminate.
Qed.

Lemma if_map_app {X Y : Type} (b : bool) (f : X -> Y) (l1 l2 : list X) :
  (if b then map f l1 else []) ++ (if b then map f l2 else [])
  = if b then map f (l1 ++ l2) else [].
Proof. destruct b; [now rewrite map_app | reflexivity]. Qed.

Lemma lists_run_done (args : Args) wait gs h ext c :
  lists_run args wait gs h ext c ->
  exists done rest, has_done args (flat_map syncs gs) done rest ext c.
Proof.
  unfold has_done.
  induction 1 as [h | g gs h ext c Hempty Hrun
                        [done [rest [IH1 [IH2 [IH3 IH4]]]]]
                  | g gs h e Hne
                  | g gs h h' ext1 ext2 c Hne H1 Hrun
                      [done [rest [IH1 [IH2 [IH3 IH4]]]]]
                  | g gs h ext1 v Hne H1 | g gs h ext1 e Hne H1];
    cbn [flat_map];
    try (apply syncs_run_done in H1;
         destruct H1 as [done1 [rest1 [E1 [E2 [E3 E4]]]]]).
  - exists [], []. destruct (verbose args >=? 1); now repeat split.
  - exists done, rest. rewrite Hempty. cbn [app]. now repeat split.
  - exists [], (syncs g ++ flat_map syncs gs).
    destruct (verbose args >=? 1); repeat split; discriminate.
  - rewrite (E4 h' eq_refl), app_nil_r in E1.
    exists (done1 ++ done), rest.
    change (transfers (?a :: ext1 ++ ?b :: ext2))
      with (transfers (ext1 ++ b :: ext2)).
    change (stdout_lines (?a :: ext1 ++ ?b :: ext2))
      with (stdout_lines (ext1 ++ b :: ext2)).
    rewrite transfers_app, stdout_lines_app.
    change (transfers (EvFlockRelease (lock_file g) :: ext2))
      with (transfers ext2).
    change (stdout_lines (EvFlockRelease (lock_file g) :: ext2))
      with (stdout_lines ext2).
    rewrite E1, IH1, E2, IH2, E3, IH3, if_map_app, map_app, app_assoc.
    now repeat split.
  - exists done1, (rest1 ++ flat_map syncs gs).
    change (transfers (?a :: ext1 ++ [?b])) with (transfers (ext1 ++ [b])).
    change (stdout_lines (?a :: ext1 ++ [?b]))
      with (stdout_lines (ext1 ++ [b])).
    rewrite transfers_app, stdout_lines_app. cbn [transfers stdout_lines flat_map app].
    rewrite !app_nil_r, E1, E2, E3, app_assoc.
    repeat split. discriminate.
  - exists done1, (rest1 ++ flat_map syncs gs).
    change (transfers (?a :: ext1 ++ [?b])) with (transfers (ext1 ++ [b])).
    change (stdout_lines (?a :: ext1 ++ [?b]))
      with (stdout_lines (ext1 ++ [b])).
    rewrite transfers_app, stdout_lines_app. cbn [transfers stdout_lines flat_map app].
    rewrite !app_nil_r, E1, E2, E3, app_assoc.
    repeat split. discriminate.
Qed.

(** The inner loop executes [return] only under fail-fast. *)
Lemma syncs_run_return (args : Args) l h ext c :
  syncs_run args l h ext c ->
  forall v, c = Return v -> fail_fast args = true /\ v = 1.
Proof.
  induction 1; intros v' Hc; try discriminate; auto.
  injection Hc as <-. now split.
Qed.

Lemma lists_run_return (args : Args) wait gs h ext c :
  lists_run args wait gs h ext c ->
  forall v, c = Return v -> fail_fast args = true /\ v = 1.
Proof.
  induction 1 as [h | g gs h ext c Hempty Hrun IH | g gs h e Hne
                  | g gs h h' ext1 ext2 c Hne H1 Hrun IH
                  | g gs h ext1 v Hne H1 | g gs h ext1 e Hne H1];
    intros v' Hc; try discriminate; auto.
  injection Hc as <-. now apply (syncs_run_return _ _ _ _ _ H1).
Qed.

(** The syncs selected by the arguments, first those of the openvas group,
    then those of the gvmd group. *)
Definition selected (args : Args) : list Sync :=
  flat_map syncs (sync_lists_of args).

Lemma run_done (args : Args) :
  parse_arguments = inr args ->
  exists done rest,
    selected args = done ++ rest
    /\ transfers (snd run) = map target done
    /\ stdout_lines (snd run)
       = (if verbose args >=? 1 then map downloading done else [])
    /\ forall v,
         fst run = Return v ->
         (fail_fast args = true /\ v = 1) \/ rest = [].
Proof.
  intros Hargs.
  destruct (feed_sync_shape_args _ _ _ _ args
              (feed_sync_run geteuid parse_arguments rsync_sync
                 flock_wait_enter) Hargs)
    as [[_ [-> ->]] | [_ [ext [c' [-> [Hrun ->]]]]]].
  - exists [], (selected args).
    destruct (verbose args >=? 1); repeat split; discriminate.
  - destruct (lists_run_done _ _ _ _ _ _ Hrun)
      as [done [rest [H1 [H2 [H3 H4]]]]].
    exists done, rest. repeat split; try assumption.
    intros v Hv. destruct c' as [h' | v' | e]; cbn [ends_as] in Hv.
    + right. now apply (H4 h').
    + left. injection Hv as <-. now apply (lists_run_return _ _ _ _ _ _ Hrun).
    + discriminate.
Qed.

(** X4. In every run the transfers are started in the order of the
    selected syncs, the openvas group first, without gaps or repetitions:
    they are the transfers of an initial segment of the selected syncs.
    When [feed_sync] returns with fail-fast disabled, or returns 0, every
    selected sync has been transferred. *)
Theorem transfers_follow_the_selected_syncs :
  forall (args : Args),
    parse_arguments = inr args ->
    exists done rest,
      selected args = done ++ rest
      /\ transfers (snd run) = map target done
      /\ forall v,
           fst run = Return v ->
           fail_fast args = false \/ v = 0 ->
           rest = [].
Proof.
  intros args Hargs.
  destruct (run_done args Hargs) as [done [rest [H1 [H2 [_ H4]]]]].
  exists done, rest. repeat split; try assumption.
  intros v Hv Hcase. destruct (H4 v Hv) as [[Hff Hone] | Hnil]; [| exact Hnil].
  destruct Hcase; [congruence | lia].
Qed.

(** X7. What [feed_sync] prints to the standard output: when the verbosity
    is at least 1, one line [Downloading <name> from <url> to
    <destination>] for each transfer started, in the order of the
    transfers, and nothing else; when the verbosity is below 1, nothing. *)
Theorem stdout_announces_the_transfers :
  forall (args : Args),
    parse_arguments = inr args ->
    exists done rest,
      selected args = done ++ rest
      /\ transfers (snd run) = map target done
      /\ stdout_lines (snd run)
         = (if verbose args >=? 1 then map downloading done else []).
Proof.
  intros args Hargs.
  destruct (run_done args Hargs) as [done [rest [H1 [H2 [H3 _]]]]].
  now exists done, rest.
Qed.

(** *** The error stream *)

Lemma stderr_lines_app (a b : list event) :
  stderr_lines (a ++ b) = stderr_lines a ++ stderr_lines b.
Proof. apply flat_map_app. Qed.

Lemma diagnostics_app (a b : list event) :
  diagnostics (a ++ b) = diagnostics a ++ diagnostics b.
Proof. apply flat_map_app. Qed.

Lemma stderr_diagnostics_announce (args : Args) (s : Sync) :
  stderr_lines (announce args s) = [] /\ diagnostics (announce args s) = [].
Proof. unfold announce. now destruct (verbose args >=? 1). Qed.

Lemma syncs_run_stderr (args : Args) l h ext c :
  syncs_run args l h ext c -> stderr_lines ext = diagnostics ext.
Proof.
  induction 1 as [h | s l h ext c Hrun IH | s l h e Hinst Hff
                  | s l h e ext c Hinst Hff Hrun IH | s l h e Hinst];
    rewrite ?stderr_lines_app, ?diagnostics_app;
    try rewrite (proj1 (stderr_diagnostics_announce args s));
    try rewrite (proj2 (stderr_diagnostics_announce args s));
    cbn [stderr_lines diagnostics flat_map app]; try rewrite Hinst;
    cbn [app]; try reflexivity.
  - exact IH.
  - f_equal. exact IH.
Qed.

Lemma lists_run_stderr (args : Args) wait gs h ext c :
  lists_run args wait gs h ext c -> stderr_lines ext = diagnostics ext.
Proof.
  induction 1 as [h | g gs h ext c Hempty Hrun IH | g gs h e Hne
                  | g gs h h' ext1 ext2 c Hne H1 Hrun IH
                  | g gs h ext1 v Hne H1 | g gs h ext1 e Hne H1];
    try (apply syncs_run_stderr in H1); try reflexivity; try exact IH.
  - change (stderr_lines (?a :: ext1 ++ ?b :: ext2))
      with (stderr_lines (ext1 ++ b :: ext2)).
    change (diagnostics (?a :: ext1 ++ ?b :: ext2))
      with (diagnostics (ext1 ++ b :: ext2)).
    rewrite stderr_lines_app, diagnostics_app, H1.
    f_equal. exact IH.
  - change (stderr_lines (?a :: ext1 ++ [?b]))
      with (stderr_lines (ext1 ++ [b])).
    change (diagnostics (?a :: ext1 ++ [?b]))
      with (diagnostics (ext1 ++ [b])).
    now rewrite stderr_lines_app, diagnostics_app, H1.
  - change (stderr_lines (?a :: ext1 ++ [?b]))
      with (stderr_lines (ext1 ++ [b])).
    change (diagnostics (?a :: ext1 ++ [?b]))
      with (diagnostics (ext1 ++ [b])).
    now rewrite stderr_lines_app, diagnostics_app, H1.
Qed.

Lemma feed_sync_shape_stderr geteuid' parse_arguments' c tr :
  feed_sync_shape geteuid' parse_arguments' c tr ->
  stderr_lines tr = diagnostics tr.
Proof.
  intros [Hroot | e Hroot Hparse | args0 h ext Hroot Hparse Hrun
          | args0 v ext Hroot Hparse Hrun | args0 e ext Hroot Hparse Hrun];
    try reflexivity;
    exact (lists_run_stderr _ _ _ _ _ _ Hrun).
Qed.

(** X6. What the program prints to the error stream: [feed_sync] prints
    the diagnostic outputs of the transfers that raised an [RsyncError],
    one line for each, in the order of the failures, and nothing else;
    [main] adds the message of the exception when the run ended with a
    [GreenboneFeedSyncError], and nothing otherwise. *)
Theorem stderr_holds_the_diagnostics :
  stderr_lines (snd run) = diagnostics (snd run)
  /\ stderr_lines
       (snd (main geteuid parse_arguments rsync_sync flock_wait_enter))
     = diagnostics (snd run)
         ++ match fst run with
            | Raise e =>
                if isinstance e "GreenboneFeedSyncError"
                then [exn_str e] else []
            | _ => []
            end.
Proof.
  pose proof (feed_sync_shape_stderr _ _ _ _
                (feed_sync_run geteuid parse_arguments rsync_sync
                   flock_wait_enter)) as Herr.
  split; [exact Herr |].
  unfold main.
  destruct (feed_sync geteuid parse_arguments rsync_sync flock_wait_enter [])
    as [[[] | v | e] tr]; cbn [fst snd] in *.
  - now rewrite app_nil_r.
  - destruct (isinstance e "GreenboneFeedSyncError"); cbn [snd].
    + rewrite stderr_lines_app, Herr. reflexivity.
    + destruct (isinstance e "KeyboardInterrupt"); cbn [snd];
        now rewrite app_nil_r.
Qed.

(** *** Runs without any failure *)

Definition clean (tr : list event) : Prop :=
  forall ev, In ev tr -> raised_at ev = None.

Lemma clean_app (a b : list event) : clean (a ++ b) -> clean a /\ clean b.
Proof. intros H. split; intros ev Hev; apply H, in_or_app; tauto. Qed.

Lemma clean_cons (ev : event) (tr : list event) :
  clean (ev :: tr) -> raised_at ev = None /\ clean tr.
Proof.
  intros H. split; [apply H; now left | intros ev' Hev'; apply H; now right].
Qed.

(** When no call raises, the loops reach their end with [has_error] as it
    was. *)
Lemma syncs_run_clean (args : Args) l h ext c :
  syncs_run args l h ext c -> clean ext -> c = Normal h.
Proof.
  induction 1 as [h | s l h ext c Hrun IH | s l h e Hinst Hff
                  | s l h e ext c Hinst Hff Hrun IH | s l h e Hinst];
    intros Hclean; try reflexivity;
    apply clean_app in Hclean; destruct Hclean as [_ Hclean];
    apply clean_cons in Hclean; destruct Hclean as [Hev Hclean];
    try discriminate.
  now apply IH.
Qed.

Lemma lists_run_clean (args : Args) wait gs h ext c :
  lists_run args wait gs h ext c -> clean ext -> c = Normal h.
Proof.
  induction 1 as [h | g gs h ext c Hempty Hrun IH | g gs h e Hne
                  | g gs h h' ext1 ext2 c Hne H1 Hrun IH
                  | g gs h ext1 v Hne H1 | g gs h ext1 e Hne H1];
    intros Hclean; try reflexivity; try (now apply IH);
    apply clean_cons in Hclean; destruct Hclean as [Hev Hclean];
    try discriminate;
    apply clean_app in Hclean; destruct Hclean as [Hc1 Hc2];
    pose proof (syncs_run_clean _ _ _ _ _ H1 Hc1) as Hn; try discriminate.
  injection Hn as ->. apply clean_cons in Hc2. now apply IH.
Qed.

(** In a run of a loop that reaches its end, a call raised nothing or a
    transfer raised an [RsyncError]. *)
Lemma syncs_run_normal (args : Args) l h ext c :
  syncs_run args l h ext c ->
  forall h', c = Normal h' ->
  forall ev, In ev ext -> raised_at ev = None \/ transfer_error ev = true.
Proof.
  induction 1 as [h | s l h ext c Hrun IH | s l h e Hinst Hff
                  | s l h e ext c Hinst Hff Hrun IH | s l h e Hinst];
    intros h' Hc ev Hin; try discriminate.
  - destruct Hin.
  - apply in_app_or in Hin. destruct Hin as [Hin | [<- | Hin]].
    + left. unfold announce in Hin.
      destruct (verbose args >=? 1); [destruct Hin as [<- | []] | destruct Hin].
      reflexivity.
    + now left.
    + now apply (IH h').
  - apply in_app_or in Hin. destruct Hin as [Hin | [<- | [<- | Hin]]].
    + left. unfold announce in Hin.
      destruct (verbose args >=? 1); [destruct Hin as [<- | []] | destruct Hin].
      reflexivity.
    + right. exact Hinst.
    + now left.
    + now apply (IH h').
Qed.

Lemma lists_run_normal (args : Args) wait gs h ext c :
  lists_run args wait gs h ext c ->
  forall h', c = Normal h' ->
  forall ev, In ev ext -> raised_at ev = None \/ transfer_error ev = true.
Proof.
  induction 1 as [h | g gs h ext c Hempty Hrun IH | g gs h e Hne
                  | g gs h h' ext1 ext2 c Hne H1 Hrun IH
                  | g gs h ext1 v Hne H1 | g gs h ext1 e Hne H1];
    intros h2 Hc ev Hin; try discriminate.
  - destruct Hin.
  - now apply (IH h2).
  - destruct Hin as [<- | Hin]; [now left |].
    apply in_app_or in Hin. destruct Hin as [Hin | [<- | Hin]].
    + now apply (syncs_run_normal _ _ _ _ _ H1 h').
    + now left.
    + now apply (IH h2).
Qed.

(** X5. [feed_sync] returns 0 exactly in the runs that get past the root
    check and the parsing of the arguments and in which no lock acquisition
    and no transfer raises anything; in such a run every selected sync has
    been transferred.  This holds under either policy. *)
Theorem returns_zero_iff_nothing_raised :
  (fst run = Return 0 <->
   geteuid <> 0
   /\ (exists args, parse_arguments = inr args)
   /\ forall ev, In ev (snd run) -> raised_at ev = None)
  /\ (fst run = Return 0 ->
      forall args, parse_arguments = inr args ->
        transfers (snd run) = targets (sync_lists_of args)).
Proof.
  pose proof (feed_sync_run geteuid parse_arguments rsync_sync
                flock_wait_enter) as Hshape.
  assert (Hzero : fst run = Return 0 ->
    exists args ext,
      geteuid <> 0 /\ parse_arguments = inr args
      /\ snd run = prologue args ++ ext
      /\ lists_run args (wait_of args) (sync_lists_of args) false ext
           (Normal false)).
  { intros Hret.
    destruct Hshape as [Hroot | e Hroot Hparse | args0 h ext Hroot Hparse Hrun
          | args0 v ext Hroot Hparse Hrun | args0 e ext Hroot Hparse Hrun];
      try discriminate.
    - exists args0, ext. destruct h; [discriminate | now repeat split].
    - injection Hret as ->.
      destruct (lists_run_return _ _ _ _ _ _ Hrun 0 eq_refl). discriminate. }
  split; [split |].
  - intros Hret.
    destruct (Hzero Hret) as [args [ext [Hroot [Hargs [Htr Hrun]]]]].
    split; [exact Hroot | split; [now exists args |]].
    rewrite Htr. intros ev Hin. apply in_app_or in Hin.
    destruct Hin as [Hin | Hin].
    + cbn in Hin. destruct Hin as [<- | [<- | [<- | []]]]; reflexivity.
    + destruct (lists_run_normal _ _ _ _ _ _ Hrun false eq_refl ev Hin)
        as [Hnone | Herr]; [exact Hnone |].
      apply lists_run_errors in Hrun. cbn [tells_errors orb] in Hrun.
      assert (Hex : existsb transfer_error ext = true).
      { apply existsb_exists. now exists ev. }
      congruence.
  - intros [Hroot [[args Hargs] Hclean]].
    destruct (feed_sync_shape_args _ _ _ _ args Hshape Hargs)
      as [[Hz _] | [_ [ext [c' [Htr [Hrun Hc]]]]]]; [contradiction |].
    rewrite Htr in Hclean. apply clean_app in Hclean.
    rewrite Hc, (lists_run_clean _ _ _ _ _ _ Hrun (proj2 Hclean)).
    reflexivity.
  - intros Hret args Hargs.
    destruct (Hzero Hret) as [args' [ext [_ [Hargs' [Htr Hrun]]]]].
    assert (args' = args) as -> by congruence.
    rewrite Htr, transfers_prologue.
    destruct (lists_run_transfers _ _ _ _ _ _ Hrun) as [rest [Hrest Hnil]].
    rewrite (Hnil false eq_refl), app_nil_r in Hrest. now symmetry.
Qed.

(** *** Where an exception that leaves [feed_sync] comes from *)




(** *** How the locks are entered *)

Lemma lists_run_flock_wait (args : Args) wait gs h ext c :
  lists_run args wait gs h ext c ->
  forall path v w r,
    In (EvFlockWait path v w r) ext ->
    v = (verbose args >=? 2) /\ w = wait
    /\ exists g, In g gs /\ syncs g <> [] /\ path = lock_file g.
Proof.
  assert (Hinner : forall l h1 ext1 c1 path v w r,
    syncs_run args l h1 ext1 c1 -> ~ In (EvFlockWait path v w r) ext1).
  { intros l h1 ext1 c1 path v w r Hrun Hin.
    apply syncs_run_lock_ops in Hrun.
    apply (lock_ops_nil_In _ _ Hrun) in Hin. discriminate. }
  assert (Hmore : forall (g0 : SyncList) (gs0 : list SyncList) path v w,
    (v = (verbose args >=? 2) /\ w = wait
     /\ exists g', In g' gs0 /\ syncs g' <> [] /\ path = lock_file g') ->
    v = (verbose args >=? 2) /\ w = wait
    /\ exists g', In g' (g0 :: gs0) /\ syncs g' <> [] /\ path = lock_file g').
  { intros g0 gs0 path v w [Hv [Hw [g' [Hin Hg']]]].
    repeat split; try assumption. exists g'. split; [now right | exact Hg']. }
  induction 1 as [h | g gs h ext c Hempty Hrun IH | g gs h e Hne
                  | g gs h h' ext1 ext2 c Hne H1 Hrun IH
                  | g gs h ext1 v0 Hne H1 | g gs h ext1 e Hne H1];
    intros path v w r Hin.
  - destruct Hin.
  - apply Hmore. now apply (IH path v w r).
  - destruct Hin as [Heq | []]. injection Heq as <- <- <- _.
    repeat split. exists g. split; [now left | now split].
  - destruct Hin as [Heq | Hin].
    + injection Heq as <- <- <- _.
      repeat split. exists g. split; [now left | now split].
    + apply in_app_or in Hin. destruct Hin as [Hin | [Heq | Hin]].
      * now destruct (Hinner _ _ _ _ _ _ _ _ H1 Hin).
      * discriminate.
      * apply Hmore. now apply (IH path v w r).
  - destruct Hin as [Heq | Hin].
    + injection Heq as <- <- <- _.
      repeat split. exists g. split; [now left | now split].
    + apply in_app_or in Hin. destruct Hin as [Hin | [Heq | []]].
      * now destruct (Hinner _ _ _ _ _ _ _ _ H1 Hin).
      * discriminate.
  - destruct Hin as [Heq | Hin].
    + injection Heq as <- <- <- _.
      repeat split. exists g. split; [now left | now split].
    + apply in_app_or in Hin. destruct Hin as [Hin | [Heq | []]].
      * now destruct (Hinner _ _ _ _ _ _ _ _ H1 Hin).
      * discriminate.
Qed.

(** X8. How [feed_sync] calls [flock_wait]: only on the openvas lock file
    or the gvmd lock file of the arguments, with [verbose] set exactly when
    the verbosity is at least 2, and with the wait interval of the
    arguments, or with no wait interval when [no_wait] is set. *)
Theorem flock_wait_is_called_with_the_arguments :
  forall (args : Args) (path : string) (v : bool) (w : option Z)
         (r : option exn),
    parse_arguments = inr args ->
    In (EvFlockWait path v w r) (snd run) ->
    (path = openvas_lock_file args \/ path = gvmd_lock_file args)
    /\ v = (verbose args >=? 2)
    /\ w = (if no_wait args then None else Some (wait_interval args)).
Proof.
  intros args path v w r Hargs Hin.
  destruct (feed_sync_shape_args _ _ _ _ args
              (feed_sync_run geteuid parse_arguments rsync_sync
                 flock_wait_enter) Hargs)
    as [[_ [Htr _]] | [_ [ext [c' [Htr [Hrun _]]]]]];
    rewrite Htr in Hin.
  - destruct Hin.
  - apply in_app_or in Hin. destruct Hin as [Hin | Hin].
    + cbn in Hin. destruct Hin as [H | [H | [H | []]]]; discriminate.
    + destruct (lists_run_flock_wait _ _ _ _ _ _ Hrun path v w r Hin)
        as [Hv [Hw [g [Hg [_ Hpath]]]]].
      repeat split; try assumption.
      destruct Hg as [<- | [<- | []]]; [now left | now right].
Qed.

(** *** The lock operations of a whole run *)

Lemma lists_run_lock_ops_normal (args : Args) wait gs h ext c :
  lists_run args wait gs h ext c ->
  forall h', c = Normal h' -> lock_ops ext = expected_lock_ops gs.
Proof.
  induction 1 as [h | g gs h ext c Hempty Hrun IH | g gs h e Hne
                  | g gs h h' ext1 ext2 c Hne H1 Hrun IH
                  | g gs h ext1 v Hne H1 | g gs h ext1 e Hne H1];
    intros h2 Hc; try discriminate;
    try rewrite (expected_lock_ops_cons g gs Hne).
  - reflexivity.
  - unfold expected_lock_ops in *. cbn [flat_map]. rewrite Hempty.
    now apply (IH h2).
  - apply syncs_run_lock_ops in H1.
    change (lock_ops (?a :: ext1 ++ ?b :: ext2))
      with (Enter (lock_file g) :: lock_ops (ext1 ++ b :: ext2)).
    rewrite lock_ops_app, H1. cbn [app].
    change (lock_ops (EvFlockRelease (lock_file g) :: ext2))
      with (Leave (lock_file g) :: lock_ops ext2).
    now rewrite (IH h2 Hc).
Qed.

(** X12. The lock operations of a run: the lock of each group that has
    selected syncs is entered once and left once, the openvas group before
    the gvmd group, as far as the run gets; the lock of a group without
    selected syncs is not touched.  When [feed_sync] returns with fail-fast
    disabled, or returns 0, both groups have been dealt with. *)
Theorem locks_are_taken_in_turn :
  forall (args : Args),
    parse_arguments = inr args ->
    exists rest,
      expected_lock_ops (sync_lists_of args) = lock_ops (snd run) ++ rest
      /\ forall v,
           fst run = Return v ->
           fail_fast args = false \/ v = 0 ->
           rest = [].
Proof.
  intros args Hargs.
  destruct (feed_sync_shape_args _ _ _ _ args
              (feed_sync_run geteuid parse_arguments rsync_sync
                 flock_wait_enter) Hargs)
    as [[_ [-> ->]] | [_ [ext [c' [-> [Hrun ->]]]]]].
  - eexists. split; [reflexivity | discriminate].
  - rewrite lock_ops_prologue.
    destruct (lists_run_lock_ops _ _ _ _ _ _ Hrun) as [rest Hrest].
    exists rest. split; [exact Hrest |].
    intros v Hv Hcase. destruct c' as [h' | v' | e]; cbn [ends_as] in Hv.
    + rewrite (lists_run_lock_ops_normal _ _ _ _ _ _ Hrun h' eq_refl) in Hrest.
      rewrite <- (app_nil_r (expected_lock_ops _)) in Hrest at 1.
      apply app_inv_head in Hrest. now symmetry.
    + injection Hv as <-.
      destruct (lists_run_return _ _ _ _ _ _ Hrun v' eq_refl) as [Hff ->].
      destruct Hcase; [congruence | discriminate].
    + discriminate.
Qed.

(** *** Feed types *)

(** The feed types carried by the syncs of [feed_sync] (lines 93-138). *)
Definition feed_types : list string :=
  ["notus"; "nasl"; "nvt"; "scap"; "cert"; "report-format"; "scan-config";
   "port-list"; "gvmd-data"; "all"].

Lemma contains_false (x : string) (xs : list string) :
  ~ In x xs -> contains x xs = false.
Proof.
  intros Hnot. destruct (contains x xs) eqn:Hc; [| reflexivity].
  apply contains_In in Hc. contradiction.
Qed.

(** A feed type that no sync carries selects nothing. *)
Lemma unknown_type_selects_nothing (args : Args) :
  ~ In (type args) feed_types ->
  sync_lists_of args
  = [ {| lock_file := openvas_lock_file args; syncs := [] |};
      {| lock_file := gvmd_lock_file args; syncs := [] |} ].
Proof.
  intros Hnot.
  unfold sync_lists_of, filter_syncs, openvas_candidates, gvmd_candidates.
  cbn [filter types].
  rewrite !contains_false; [reflexivity | ..];
    intros Hin; apply Hnot; cbn in Hin |- *; tauto.
Qed.

(** A pass over groups without syncs does nothing. *)
Lemma lists_run_nothing (args : Args) wait gs h ext c :
  lists_run args wait gs h ext c ->
  (forall g, In g gs -> syncs g = []) ->
  ext = [] /\ c = Normal h.
Proof.
  induction 1 as [h | g gs h ext c Hempty Hrun IH | g gs h e Hne
                  | g gs h h' ext1 ext2 c Hne H1 Hrun IH
                  | g gs h ext1 v Hne H1 | g gs h ext1 e Hne H1];
    intros Hall; try (now split);
    try (now destruct Hne; apply Hall; left).
  apply IH. intros g' Hg'. apply Hall. now right.
Qed.

(** X9. A feed type that none of the syncs carries makes the run a
    success without any work: past the root check and the parsing of the
    arguments, [feed_sync] calls [filter_syncs] twice, enters no lock,
    starts no transfer and returns 0, and [main] exits with status 0. *)
Theorem unknown_feed_type_does_nothing :
  forall (args : Args),
    geteuid <> 0 ->
    parse_arguments = inr args ->
    ~ In (type args) feed_types ->
    run = (Return 0, prologue args)
    /\ main geteuid parse_arguments rsync_sync flock_wait_enter
       = (Exit 0, prologue args).
Proof.
  intros args Hroot Hargs Hnot.
  assert (Hrun : run = (Return 0, prologue args)).
  { destruct (feed_sync_shape_args _ _ _ _ args
                (feed_sync_run geteuid parse_arguments rsync_sync
                   flock_wait_enter) Hargs)
      as [[Hz _] | [_ [ext [c' [Htr [Hlists Hc]]]]]]; [contradiction |].
    rewrite (unknown_type_selects_nothing args Hnot) in Hlists.
    apply lists_run_nothing in Hlists.
    - destruct Hlists as [-> ->]. cbn [ends_as] in Hc.
      rewrite app_nil_r in Htr.
      destruct (feed_sync geteuid parse_arguments rsync_sync
                  flock_wait_enter []) as [c tr].
      cbn [fst snd] in *. now subst.
    - intros g [<- | [<- | []]]; reflexivity. }
  split; [exact Hrun |]. unfold main. now rewrite Hrun.
Qed.

(** The feed types carried by syncs of one group only. *)
Definition openvas_feed_types : list string := ["notus"; "nasl"; "nvt"].
Definition gvmd_feed_types : list string :=
  ["scap"; "cert"; "report-format"; "scan-config"; "port-list"; "gvmd-data"].

Lemma openvas_type_selects (args : Args) :
  In (type args) openvas_feed_types ->
  expected_lock_ops (sync_lists_of args)
  = [Enter (openvas_lock_file args); Leave (openvas_lock_file args)]
  /\ incl (targets (sync_lists_of args))
       (map target (openvas_candidates args)).
Proof.
  unfold sync_lists_of, filter_syncs, expected_lock_ops, targets,
    openvas_candidates, gvmd_candidates.
  intros [H | [H | [H | []]]]; rewrite <- H; cbn;
    (split; [reflexivity | intros x Hx; cbn in Hx |- *; tauto]).
Qed.

Lemma gvmd_type_selects (args : Args) :
  In (type args) gvmd_feed_types ->
  expected_lock_ops (sync_lists_of args)
  = [Enter (gvmd_lock_file args); Leave (gvmd_lock_file args)]
  /\ incl (targets (sync_lists_of args))
       (map target (gvmd_candidates args)).
Proof.
  unfold sync_lists_of, filter_syncs, expected_lock_ops, targets,
    openvas_candidates, gvmd_candidates.
  intros [H | [H | [H | [H | [H | [H | []]]]]]]; rewrite <- H; cbn;
    (split; [reflexivity | intros x Hx; cbn in Hx |- *; tauto]).
Qed.

(** X10. A feed type carried only by syncs of one group leaves the other
    group alone.  With [notus], [nasl] or [nvt] the only lock operations of
    a run are on the openvas lock file, entered once and left once as far
    as the run gets, and only openvas syncs are transferred; with [scap],
    [cert], [report-format], [scan-config], [port-list] or [gvmd-data] the
    same holds for the gvmd lock file and the gvmd syncs. *)
Theorem feed_type_of_one_group_leaves_the_other :
  forall (args : Args),
    parse_arguments = inr args ->
    (In (type args) openvas_feed_types ->
       (exists rest,
          [Enter (openvas_lock_file args); Leave (openvas_lock_file args)]
          = lock_ops (snd run) ++ rest)
       /\ incl (transfers (snd run)) (map target (openvas_candidates args)))
    /\ (In (type args) gvmd_feed_types ->
          (exists rest,
             [Enter (gvmd_lock_file args); Leave (gvmd_lock_file args)]
             = lock_ops (snd run) ++ rest)
          /\ incl (transfers (snd run)) (map target (gvmd_candidates args))).
Proof.
  intros args Hargs.
  pose proof (feed_sync_run geteuid parse_arguments rsync_sync
                flock_wait_enter) as Hshape.
  destruct (feed_sync_shape_transfers _ _ _ _ args Hshape Hargs)
    as [trest Htrans].
  assert (Hlocks : exists rest,
    expected_lock_ops (sync_lists_of args) = lock_ops (snd run) ++ rest).
  { destruct (feed_sync_shape_args _ _ _ _ args Hshape Hargs)
      as [[_ [-> _]] | [_ [ext [c' [-> [Hrun _]]]]]].
    - now eexists.
    - rewrite lock_ops_prologue.
      exact (lists_run_lock_ops _ _ _ _ _ _ Hrun). }
  split; intros Htype.
  - destruct (openvas_type_selects args Htype) as [Hexp Hincl].
    rewrite Hexp in Hlocks. split; [exact Hlocks |].
    intros x Hx. apply Hincl. rewrite Htrans. apply in_or_app. now left.
  - destruct (gvmd_type_selects args Htype) as [Hexp Hincl].
    rewrite Hexp in Hlocks. split; [exact Hlocks |].
    intros x Hx. apply Hincl. rewrite Htrans. apply in_or_app. now left.
Qed.

End Further.

(** ** Concrete runs for the further properties *)

Definition denied_pre : list event :=
  [EvParseArguments;
   EvFilterSyncs "openvas.lock" "all"; EvFilterSyncs "gvmd.lock" "all";
   EvFlockWait "openvas.lock" false (Some 5) None;
   EvRsyncSync "u-notus" "d-notus" None;
   EvRsyncSync "u-nasl" "d-nasl" None;
   EvFlockRelease "openvas.lock"].

Definition cert_args : Args := example_args false "cert" 2.
Definition bogus_args : Args := example_args false "bogus" 0.

Lemma transfer_runs_under_group_lock_witness :
  snd (feed_sync 1000 (inr stop_args) nasl_fails flock_free [])
  = stop_pre
      ++ EvRsyncSync "u-nasl" "d-nasl" (Some (rsync_error "boom"))
      :: stop_post
  /\ exists (args : Args) (g : SyncList),
       @inr exn Args stop_args = inr args
       /\ In g (sync_lists_of args)
       /\ In ("u-nasl", "d-nasl") (map target (syncs g))
       /\ held_after stop_pre = [lock_file g].
Proof.
  split; [reflexivity |].
  apply (transfer_runs_under_group_lock 1000 (inr stop_args) nasl_fails
           flock_free stop_pre stop_post "u-nasl" "d-nasl"
           (Some (rsync_error "boom"))).
  reflexivity.
Defined.

Lemma at_most_one_lock_held_witness :
  snd (feed_sync 1000 (inr stop_args) nasl_fails flock_free [])
  = stop_pre
      ++ (EvRsyncSync "u-nasl" "d-nasl" (Some (rsync_error "boom"))
            :: stop_post)
  /\ (length (held_after stop_pre) <= 1)%nat.
Proof.
  split; [reflexivity |].
  apply (at_most_one_lock_held 1000 (inr stop_args) nasl_fails flock_free
           stop_pre
           (EvRsyncSync "u-nasl" "d-nasl" (Some (rsync_error "boom"))
              :: stop_post)).
  reflexivity.
Defined.

Lemma lock_failure_aborts_the_run_witness :
  snd (feed_sync 1000 (inr go_args) no_failure gvmd_lock_denied [])
  = denied_pre
      ++ EvFlockWait "gvmd.lock" false (Some 5) (Some permission_error)
      :: []
  /\ fst (feed_sync 1000 (inr go_args) no_failure gvmd_lock_denied [])
     = Raise permission_error
  /\ @nil event = []
  /\ transfers
       (snd (feed_sync 1000 (inr go_args) no_failure gvmd_lock_denied []))
     = transfers denied_pre
  /\ held_after
       (snd (feed_sync 1000 (inr go_args) no_failure gvmd_lock_denied []))
     = [].
Proof.
  split; [reflexivity |].
  apply (lock_failure_aborts_the_run 1000 (inr go_args) no_failure
           gvmd_lock_denied denied_pre [] "gvmd.lock" false (Some 5)
           permission_error).
  reflexivity.
Defined.

Lemma transfers_follow_the_selected_syncs_witness :
  exists done rest,
    selected stop_args = done ++ rest
    /\ transfers (snd (feed_sync 1000 (inr stop_args) nasl_fails flock_free []))
       = map target done
    /\ forall v,
         fst (feed_sync 1000 (inr stop_args) nasl_fails flock_free [])
         = Return v ->
         fail_fast stop_args = false \/ v = 0 ->
         rest = [].
Proof.
  apply (transfers_follow_the_selected_syncs 1000 (inr stop_args) nasl_fails
           flock_free stop_args).
  reflexivity.
Defined.

Lemma stdout_announces_the_transfers_witness :
  exists done rest,
    selected cert_args = done ++ rest
    /\ transfers (snd (feed_sync 1000 (inr cert_args) no_failure flock_free []))
       = map target done
    /\ stdout_lines
         (snd (feed_sync 1000 (inr cert_args) no_failure flock_free []))
       = (if verbose cert_args >=? 1 then map downloading done else []).
Proof.
  apply (stdout_announces_the_transfers 1000 (inr cert_args) no_failure
           flock_free cert_args).
  reflexivity.
Defined.

Lemma flock_wait_is_called_with_the_arguments_witness :
  In (EvFlockWait "gvmd.lock" true (Some 5) None)
    (snd (feed_sync 1000 (inr cert_args) no_failure flock_free []))
  /\ ("gvmd.lock" = openvas_lock_file cert_args
      \/ "gvmd.lock" = gvmd_lock_file cert_args)
  /\ true = (verbose cert_args >=? 2)
  /\ Some 5
     = (if no_wait cert_args then None else Some (wait_interval cert_args)).
Proof.
  assert (Hin : In (EvFlockWait "gvmd.lock" true (Some 5) None)
                  (snd (feed_sync 1000 (inr cert_args) no_failure
                          flock_free []))).
  { right. right. right. left. reflexivity. }
  split; [exact Hin |].
  apply (flock_wait_is_called_with_the_arguments 1000 (inr cert_args)
           no_failure flock_free cert_args "gvmd.lock" true (Some 5) None
           eq_refl Hin).
Defined.

Lemma bogus_is_no_feed_type : ~ In (type bogus_args) feed_types.
Proof.
  cbn. intros H.
  repeat (destruct H as [H | H]; [discriminate |]). exact H.
Defined.

Lemma unknown_feed_type_does_nothing_witness :
  (1000 <> 0 /\ ~ In (type bogus_args) feed_types)
  /\ feed_sync 1000 (inr bogus_args) nasl_fails gvmd_lock_denied []
     = (Return 0, prologue bogus_args)
  /\ main 1000 (inr bogus_args) nasl_fails gvmd_lock_denied
     = (Exit 0, prologue bogus_args).
Proof.
  split; [split; [discriminate | exact bogus_is_no_feed_type] |].
  apply (unknown_feed_type_does_nothing 1000 (inr bogus_args) nasl_fails
           gvmd_lock_denied bogus_args);
    [discriminate | reflexivity | exact bogus_is_no_feed_type].
Defined.

Lemma feed_type_of_one_group_leaves_the_other_witness :
  In (type cert_args) gvmd_feed_types
  /\ (exists rest,
        [Enter (gvmd_lock_file cert_args); Leave (gvmd_lock_file cert_args)]
        = lock_ops
            (snd (feed_sync 1000 (inr cert_args) no_failure flock_free []))
            ++ rest)
  /\ incl
       (transfers
          (snd (feed_sync 1000 (inr cert_args) no_failure flock_free [])))
       (map target (gvmd_candidates cert_args)).
Proof.
  assert (Htype : In (type cert_args) gvmd_feed_types).
  { right. left. reflexivity. }
  split; [exact Htype |].
  apply (proj2 (feed_type_of_one_group_leaves_the_other 1000 (inr cert_args)
                  no_failure flock_free cert_args eq_refl) Htype).
Defined.

Lemma locks_are_taken_in_turn_witness :
  exists rest,
    expected_lock_ops (sync_lists_of go_args)
    = lock_ops (snd (feed_sync 1000 (inr go_args) scap_fails flock_free []))
        ++ rest
    /\ forall v,
         fst (feed_sync 1000 (inr go_args) scap_fails flock_free [])
         = Return v ->
         fail_fast go_args = false \/ v = 0 ->
         rest = [].
Proof.
  apply (locks_are_taken_in_turn 1000 (inr go_args) scap_fails flock_free
           go_args).
  reflexivity.
Defined.

(** ** The [Rsync] object of a run *)

(** [Rsync(private_subdir=args.private_directory, verbose=args.verbose >= 3,
    compression_level=args.compression_level)] (lines 84-88). *)
Definition rsync_of (args : Args) : Rsync :=
  {| rsync_private_subdir := private_directory args;
     rsync_verbose := verbose args >=? 3;
     rsync_compression_level := compression_level args |}.

Section TwoTransports.

Variable geteuid : Z.
Variable parse_arguments : exn + Args.
Variable flock_wait_enter :
  trace -> string -> bool -> option Z -> option exn.
Variables rsync1 rsync2 : Rsync -> trace -> string -> string -> option exn.

Lemma for_syncs_same_rsync (args : Args) (rsync : Rsync) :
  (forall tr u d, rsync1 rsync tr u d = rsync2 rsync tr u d) ->
  forall l h tr,
    for_syncs rsync1 args rsync l h tr = for_syncs rsync2 args rsync l h tr.
Proof.
  intros Hsame. induction l as [|s l IH]; intros h tr; [reflexivity |].
  cbn [for_syncs]. unfold bind. rewrite !try_sync_eq. cbn zeta.
  rewrite Hsame.
  destruct (rsync2 rsync (tr ++ announce args s) (url s) (destination s))
    as [e|]; [| apply IH].
  destruct (isinstance e "RsyncError"); [| reflexivity].
  destruct (fail_fast args); [reflexivity | apply IH].
Qed.

Lemma for_sync_lists_same_rsync (args : Args) (rsync : Rsync)
    (wait : option Z) :
  (forall tr u d, rsync1 rsync tr u d = rsync2 rsync tr u d) ->
  forall gs h tr,
    for_sync_lists rsync1 flock_wait_enter args rsync wait gs h tr
    = for_sync_lists rsync2 flock_wait_enter args rsync wait gs h tr.
Proof.
  intros Hsame. induction gs as [|g gs IH]; intros h tr; [reflexivity |].
  cbn [for_sync_lists]. destruct (syncs g) as [|s0 l0] eqn:Hsyncs; [apply IH |].
  unfold bind, locked_syncs, async_with_flock_wait.
  destruct (flock_wait_enter tr (lock_file g) (verbose args >=? 2) wait);
    [reflexivity |].
  rewrite (for_syncs_same_rsync args rsync Hsame).
  destruct (for_syncs rsync2 args rsync (syncs g) h _) as [[h' | v | e] tr'];
    [apply IH | reflexivity | reflexivity].
Qed.

(** X14. Every transfer of a run is made through the one [Rsync] object
    built from the arguments: its private subdirectory and compression
    level are those of the arguments and it is verbose exactly when the
    verbosity is at least 3.  So two transports that behave alike on that
    object give the same run, whatever they do on other objects. *)
Theorem transfers_use_the_rsync_of_the_arguments :
  (forall args, parse_arguments = inr args ->
     forall tr u d,
       rsync1 (rsync_of args) tr u d = rsync2 (rsync_of args) tr u d) ->
  forall tr : trace,
    feed_sync geteuid parse_arguments rsync1 flock_wait_enter tr
    = feed_sync geteuid parse_arguments rsync2 flock_wait_enter tr.
Proof.
  intros Hsame tr. unfold feed_sync.
  destruct (is_root geteuid); [reflexivity |].
  unfold bind at 1 3. unfold call_parse_arguments.
  destruct parse_arguments as [e | args] eqn:Hparse; [reflexivity |].
  unfold call_filter_syncs, bind, emit, ret, return_.
  change {| rsync_private_subdir := private_directory args;
            rsync_verbose := verbose args >=? 3;
            rsync_compression_level := compression_level args |}
    with (rsync_of args).
  now rewrite (for_sync_lists_same_rsync args (rsync_of args) _
                 (Hsame args eq_refl)).
Qed.

End TwoTransports.

(** A transport that fails on every verbose [Rsync] object, and one that
    never fails: they agree when the verbosity is below 3. *)
Definition fails_when_verbose
    : Rsync -> trace -> string -> string -> option exn :=
  fun rsync _ _ _ =>
    if rsync_verbose rsync then Some (rsync_error "verbose") else None.

Definition never_fails : Rsync -> trace -> string -> string -> option exn :=
  fun _ _ _ _ => None.

Lemma transfers_use_the_rsync_of_the_arguments_witness :
  (verbose cert_args >=? 3) = false
  /\ forall tr : trace,
       feed_sync 1000 (inr cert_args) fails_when_verbose flock_free tr
       = feed_sync 1000 (inr cert_args) never_fails flock_free tr.
Proof.
  split; [reflexivity |].
  apply (transfers_use_the_rsync_of_the_arguments 1000 (inr cert_args)
           flock_free fails_when_verbose never_fails).
  intros args Hargs tr u d. injection Hargs as <-. reflexivity.
Defined.

(** ** Composing group filters *)

(** X13. Group filters compose: filtering a concatenation of candidate
    lists gives the concatenation of the filtered lists, and filtering by
    two feed types in turn gives the same syncs in either order, namely
    the syncs that carry both types. *)
Theorem filter_syncs_composes :
  forall (lock lock' : string) (t1 t2 : string) (a b : list Sync),
    syncs (filter_syncs lock t1 (a ++ b))
    = syncs (filter_syncs lock t1 a) ++ syncs (filter_syncs lock t1 b)
    /\ syncs (filter_syncs lock t1 (syncs (filter_syncs lock' t2 a)))
       = syncs (filter_syncs lock t2 (syncs (filter_syncs lock' t1 a)))
    /\ forall s,
         In s (syncs (filter_syncs lock t1 (syncs (filter_syncs lock' t2 a))))
         <-> In s a /\ In t1 (types s) /\ In t2 (types s).
Proof.
  intros lock lock' t1 t2 a b. cbn [filter_syncs syncs].
  split; [apply filter_app | split].
  - induction a as [|s a IH]; [reflexivity |].
    cbn [filter].
    destruct (contains t2 (types s)) eqn:H2;
      destruct (contains t1 (types s)) eqn:H1;
      cbn [filter]; rewrite ?H1, ?H2, IH; reflexivity.
  - intros s. rewrite !filter_In, !contains_In. tauto.
Qed.
